(** * The dispatcher of the Tencent Cloud monitor datasource

    A shallow embedding of [src/datasource/datasource.ts]: the class
    [TCMonitorDatasource], which selects the enabled monitoring services,
    fans a request out to one client per service and merges the answers.

    Conventions of the embedding.
    - A JavaScript string is the [string] of the bytes of its UTF-8
      encoding.  The dispatcher compares strings, concatenates them and
      hands them on, which the encoding preserves; the two functions of
      lodash that depend on the alphabet, [_.upperCase] and [_.upperFirst],
      are parameters.
    - A JavaScript object used as a dictionary is a [gmap string _]; reading
      a missing key yields [undefined].
    - A call either returns or throws: [completion].
    - A promise is described by its final state and the instant at which it
      settles: [promise].  Instants make the completion order of concurrent
      invocations explicit.
    - The service table [SERVICES], the resolver [GetServiceFromNamespace],
      the parser [ParseMetricQuery] and the client classes [Datasources]
      live in other modules of the repository; they are parameters here,
      gathered in the class [Imports]. *)

From stdpp Require Import base strings list gmap pretty.

Set Default Proof Using "Type".

(** ** JavaScript values *)

(** The primitive values that occur in the datasource configuration and in
    the [service] tag of a query target. *)
Inductive value :=
  | VUndefined
  | VNull
  | VBool (b : bool)
  | VNum (n : Z)
  | VStr (s : string).

#[global] Instance value_eq_dec : EqDecision value.
Proof. solve_decision. Defined.

(** [obj[key]]: reading a property of a dictionary object. *)
Definition get_prop (obj : gmap string value) (key : string) : value :=
  default VUndefined (obj !! key).

(** [v === true]. *)
Definition strict_eq_true (v : value) : bool :=
  match v with
  | VBool true => true
  | _ => false
  end.

(** ** The part of lodash that the dispatcher uses *)

Definition ascii_upper (c : Ascii.ascii) : Ascii.ascii :=
  let n := Ascii.N_of_ascii c in
  if bool_decide (97 ≤ n ≤ 122)%N then Ascii.ascii_of_N (n - 32) else c.

(** What [_.upperFirst] computes on a string of ASCII characters: the
    first character in upper case, the rest as it is.  It serves the small
    installation further down, whose statuses are ASCII. *)
Definition upperFirst_ascii (s : string) : string :=
  match s with
  | EmptyString => EmptyString
  | String c rest => String (ascii_upper c) rest
  end.

(** [_.flatten] on an array of arrays: one level of nesting is removed. *)
Definition flatten {A} (results : list (list A)) : list A := concat results.

(** ** Completions and promises *)

Inductive error :=
  | TypeError
  | ClientError (msg : string).

#[global] Instance error_eq_dec : EqDecision error.
Proof. solve_decision. Defined.

Inductive completion (A : Type) :=
  | Normal (a : A)
  | Throw (e : error).
Arguments Normal {A} a.
Arguments Throw {A} e.

Inductive settlement (A : Type) :=
  | Fulfilled (v : A)
  | Rejected (e : error).
Arguments Fulfilled {A} v.
Arguments Rejected {A} e.

(** [Settles t s]: the promise settles at instant [t] in state [s];
    [Pending]: it never settles. *)
Inductive promise (A : Type) :=
  | Settles (t : nat) (s : settlement A)
  | Pending.
Arguments Settles {A} t s.
Arguments Pending {A}.

(** [Promise.resolve(v)]. *)
Definition Promise_resolve {A} (v : A) : promise A := Settles 0 (Fulfilled v).

(** One step of [Promise.all]: the promise [p] in front of the combined
    promise [r] of the promises after it.  A rejection wins over everything
    else; of two rejections the earlier one wins and, at the same instant,
    the one of the promise listed first.  Without a rejection the values
    are collected in the order of the list, once the last one is there. *)
Definition all_step {A} (p : promise A) (r : promise (list A)) : promise (list A) :=
  match p, r with
  | Settles t (Fulfilled v), Settles t' (Fulfilled vs) =>
      Settles (t `max` t') (Fulfilled (v :: vs))
  | Settles _ (Fulfilled _), Settles t' (Rejected e') => Settles t' (Rejected e')
  | Settles _ (Fulfilled _), Pending => Pending
  | Settles t (Rejected e), Settles t' (Rejected e') =>
      if bool_decide (t' < t) then Settles t' (Rejected e') else Settles t (Rejected e)
  | Settles t (Rejected e), _ => Settles t (Rejected e)
  | Pending, Settles t' (Rejected e') => Settles t' (Rejected e')
  | Pending, _ => Pending
  end.

(** [Promise.all(promises)]. *)
Definition Promise_all {A} (promises : list (promise A)) : promise (list A) :=
  foldr all_step (Settles 0 (Fulfilled [])) promises.

(** [p.then(f)] for a callback [f] that returns a plain value. *)
Definition promise_then {A B} (f : A → B) (p : promise A) : promise B :=
  match p with
  | Settles t (Fulfilled v) => Settles t (Fulfilled (f v))
  | Settles t (Rejected e) => Settles t (Rejected e)
  | Pending => Pending
  end.

(** ** The service table and the configuration *)

(** An entry of [SERVICES]: [service] is the service key, which is also the
    name of its flag in the configuration; [namespace] is its namespace. *)
Record ServiceDescriptor := {
  service : string;
  namespace : string;
}.

(** [instanceSettings]: only [jsonData] is read by the dispatcher. *)
Record InstanceSettings := {
  jsonData : gmap string value;
}.

(** ** Requests and answers *)

(** A query target.  [tservice] is its [service] property: [None] when the
    target has no such property.  [refId] and [tnamespace] stand for the
    rest of the target, which the dispatcher hands on untouched. *)
Record Target := {
  tservice : option value;
  refId : string;
  tnamespace : string;
}.

#[global] Instance Target_eq_dec : EqDecision Target.
Proof. solve_decision. Defined.

(** The [options] of a query: [shared] stands for every property but
    [targets] (time range, interval and so on). *)
Record Options := {
  shared : gmap string value;
  targets : list Target;
}.

(** A time series of a query answer. *)
Record Series := {
  target : string;
  datapoints : list (Z * Z);
}.

Record QueryResponse := {
  data : list Series;
}.

(** An item of a template variable. *)
Record Item := {
  text : string;
  item_value : string;
}.

(** What a client's connectivity test resolves to. *)
Module ClientResult.

Record t := {
  status : string;
  message : string;
}.

End ClientResult.

(** What [testDatasource] of the dispatcher resolves to. *)
Record TestReport := {
  status : string;
  message : string;
  title : string;
}.

(** ** Clients *)

(** The three operations of a per-service client that the dispatcher
    merges.  A [None] result is a falsy return value. *)
Record Client := {
  client_query : Options → completion (option (promise (list Series)));
  client_metricFindQuery :
    gmap string string → completion (option (promise (list Item)));
  client_testDatasource : completion (promise ClientResult.t);
}.

(** The names that the source file imports. *)
Class Imports := {
  (** the service table of [tc_monitor] *)
  SERVICES : list ServiceDescriptor;
  (** the client classes of [tc_monitor], by member name *)
  Datasources : gmap string (InstanceSettings → Client);
  (** the resolver of [common/constants]; [None] is [undefined] *)
  GetServiceFromNamespace : string → option string;
  (** the parser of [common/constants] *)
  ParseMetricQuery : string → gmap string string;
  (** [_.upperCase] of lodash, which splits its argument into words and
      puts them in upper case; its definition is not needed here *)
  upperCase : string → string;
  (** [_.upperFirst] of lodash, which puts the first character of its
      argument in upper case, by the case mapping of the runtime *)
  upperFirst : string → string;
}.

(** Modelled from the spec: the namespace resolver of section 4.1, whose
    source ([GetServiceFromNamespace] in [common/constants]) is not part of
    the sources at hand.  It returns the service key of the descriptor that
    owns the namespace, and not-found for any other string. *)
Definition resolveServiceByNamespace (registry : list ServiceDescriptor)
    (ns : string) : option string :=
  (service ∘ snd) <$> list_find (λ d, namespace d = ns) registry.

(** The datasource object: its settings and the client members that the
    constructor has assigned. *)
Record TCMonitorDatasource := {
  instanceSettings : InstanceSettings;
  members : gmap string Client;
}.

(** An invocation of a client operation, as the dispatcher performs it. *)
Inductive call :=
  | QueryCall (key : string) (request : Options)
  | MetricFindCall (key : string) (queries : gmap string string)
  | TestCall (key : string).

(** ** The dispatcher *)

Section Dispatcher.
Context `{Imports}.

(** The constructor: one client per class of [Datasources]. *)
Definition new_TCMonitorDatasource (settings : InstanceSettings)
    : TCMonitorDatasource :=
  {| instanceSettings := settings;
     members := (λ _class, _class settings) <$> Datasources |}.

(** [getNamespaces]: [_.forEach] over [SERVICES], pushing the namespace of
    every descriptor whose flag is [=== true]. *)
Definition getNamespaces (this : TCMonitorDatasource) : list string :=
  foldl
    (λ namespaces svc,
       if strict_eq_true
            (get_prop (jsonData (instanceSettings this)) (service svc))
       then namespaces ++ [namespace svc]
       else namespaces)
    [] SERVICES.

Definition getSelectedServices (this : TCMonitorDatasource)
    : list (option string) :=
  map GetServiceFromNamespace (getNamespaces this).

(** The member name [`${_.upperCase(service)}Datasource`]; lodash turns
    [undefined] into the empty string. *)
Definition memberName (service : option string) : string :=
  upperCase (default "" service) +:+ "Datasource".

(** The predicate of [_.filter(targets, ['service', service])]: the
    property is strictly equal to [service] and, when [service] is
    [undefined], the target does have the property. *)
Definition matchesProperty (service : option string) (t : Target) : bool :=
  match service, tservice t with
  | Some s, Some (VStr s') => bool_decide (s' = s)
  | None, Some VUndefined => true
  | _, _ => false
  end.

(** [optionsTemp] after the assignment to its [targets].  Requests are
    values here, so that the clone of [options] is [options]; the store
    further down makes the cloning explicit. *)
Definition optionsTemp (options : Options) (service : option string) : Options :=
  {| shared := shared options;
     targets := List.filter (matchesProperty service) (targets options) |}.

(** The [_.forEach] of [query]: [promises] and the invocations so far are
    threaded through the iterations; a throw ends the loop. *)
Fixpoint query_forEach (this : TCMonitorDatasource) (options : Options)
    (services : list (option string))
    (promises : list (promise (list Series))) (log : list call)
    : list call * completion (list (promise (list Series))) :=
  match services with
  | [] => (log, Normal promises)
  | service :: services =>
      let optionsTemp := optionsTemp options service in
      if bool_decide (0 < length (targets optionsTemp)) then
        match members this !! memberName service with
        | None => (log, Throw TypeError)
        | Some client =>
            let log := log ++ [QueryCall (memberName service) optionsTemp] in
            match client_query client optionsTemp with
            | Throw e => (log, Throw e)
            | Normal (Some promiseTemp) =>
                query_forEach this options services (promises ++ [promiseTemp]) log
            | Normal None =>
                query_forEach this options services promises log
            end
        end
      else query_forEach this options services promises log
  end.

Definition query (this : TCMonitorDatasource) (options : Options)
    : list call * completion (promise QueryResponse) :=
  let services := getSelectedServices this in
  match query_forEach this options services [] [] with
  | (log, Throw e) => (log, Throw e)
  | (log, Normal promises) =>
      if bool_decide (length promises = 0) then
        (log, Normal (Promise_resolve {| data := [] |}))
      else
        (log, Normal (promise_then (λ results, {| data := flatten results |})
                        (Promise_all promises)))
  end.

(** A string or [undefined] is falsy when it is [undefined] or empty. *)
Definition falsy (v : option string) : bool :=
  match v with
  | None => true
  | Some s => bool_decide (s = "")
  end.

(** [v || '']. *)
Definition or_empty (v : option string) : string :=
  if falsy v then "" else default "" v.

Definition metricFindQuery (this : TCMonitorDatasource) (query : string)
    : list call * completion (promise (list Item)) :=
  let queries := ParseMetricQuery query in
  let service := GetServiceFromNamespace (or_empty (queries !! "namespace")) in
  if bool_decide (queries = ∅) || falsy (queries !! "namespace")
     || falsy (queries !! "action") || falsy service then
    ([], Normal (Promise_resolve []))
  else
    match members this !! memberName service with
    | None => ([], Throw TypeError)
    | Some client =>
        let log := [MetricFindCall (memberName service) queries] in
        match client_metricFindQuery client queries with
        | Throw e => (log, Throw e)
        | Normal (Some result) => (log, Normal result)
        | Normal None => (log, Normal (Promise_resolve []))
        end
    end.

(** The [_.forEach] of [testDatasource]. *)
Fixpoint test_forEach (this : TCMonitorDatasource)
    (services : list (option string))
    (promises : list (promise ClientResult.t)) (log : list call)
    : list call * completion (list (promise ClientResult.t)) :=
  match services with
  | [] => (log, Normal promises)
  | service :: services =>
      match members this !! memberName service with
      | None => (log, Throw TypeError)
      | Some client =>
          let log := log ++ [TestCall (memberName service)] in
          match client_testDatasource client with
          | Throw e => (log, Throw e)
          | Normal promise =>
              test_forEach this services (promises ++ [promise]) log
          end
      end
  end.

Definition newline : string := String (Ascii.ascii_of_nat 10) EmptyString.

(** The [for] loop of the [then] callback, from index [i] on, with the
    current [status] and [message]. *)
Fixpoint test_for (results : list ClientResult.t) (i : nat)
    (status message : string) : string * string :=
  match results with
  | [] => (status, message)
  | result :: results =>
      let status :=
        if bool_decide (ClientResult.status result ≠ "success")
        then ClientResult.status result else status in
      let message :=
        message +:+ pretty (i + 1) +:+ ". " +:+ ClientResult.message result
                +:+ " " +:+ newline in
      test_for results (i + 1) status message
  end.

(** The [then] callback of [testDatasource]. *)
Definition test_reduce (results : list ClientResult.t) : TestReport :=
  let '(status, message) := test_for results 0 "success" "" in
  {| status := status; message := message; title := upperFirst status |}.

Definition nothing_configured : TestReport :=
  {| status := "error";
     message := "Nothing configured. At least one of the API's services must be configured.";
     title := "Error" |}.

Definition testDatasource (this : TCMonitorDatasource)
    : list call * completion (promise TestReport) :=
  let services := getSelectedServices this in
  match test_forEach this services [] [] with
  | (log, Throw e) => (log, Throw e)
  | (log, Normal promises) =>
      if bool_decide (length promises = 0) then
        (log, Normal (Promise_resolve nothing_configured))
      else
        (log, Normal (promise_then test_reduce (Promise_all promises)))
  end.

End Dispatcher.

(** ** The request as a shared object

    [query] clones its argument once per service and assigns to the clone.
    To see what this does to the caller's object, the request is placed in
    a store of objects that refer to each other by location: the options
    object refers to its array of targets, and the array to its targets.
    The other properties of the options object, and the properties of a
    target, are kept as values inside their object. *)

Abbreviation loc := positive (only parsing).

Inductive object :=
  | OTarget (t : Target)
  | OTargets (elements : list loc)
  | OOptions (shared_fields : gmap string value) (targets_field : loc).

Abbreviation heap := (gmap loc object) (only parsing).

Definition alloc (h : heap) (o : object) : heap * loc :=
  let l := fresh (dom h) in (<[l := o]> h, l).

Definition read_target (h : heap) (l : loc) : option Target :=
  match h !! l with
  | Some (OTarget t) => Some t
  | _ => None
  end.

Definition read_array (h : heap) (l : loc) : option (list loc) :=
  match h !! l with
  | Some (OTargets ls) => Some ls
  | _ => None
  end.

Definition read_options (h : heap) (l : loc) : option (gmap string value * loc) :=
  match h !! l with
  | Some (OOptions sh a) => Some (sh, a)
  | _ => None
  end.

(** The request that the object at [l] denotes, when it is laid out as a
    request is. *)
Definition read_request (h : heap) (l : loc) : option Options :=
  '(sh, a) ← read_options h l;
  ls ← read_array h a;
  ts ← mapM (read_target h) ls;
  Some {| shared := sh; targets := ts |}.

(** The objects that can be reached from the options object at [l]. *)
Definition reach (h : heap) (l : loc) : gset loc :=
  {[ l ]} ∪
  match read_options h l with
  | Some (_, a) =>
      {[ a ]} ∪
      match read_array h a with
      | Some ls => list_to_set ls
      | None => ∅
      end
  | None => ∅
  end.

(** [_.cloneDeep] on the elements of the targets array.  [seen] maps the
    objects already copied to their copies, so that an object listed twice
    is copied once, as lodash does. *)
Fixpoint clone_elements (h0 : heap) (ls : list loc) (seen : gmap loc loc)
    (h : heap) : option (heap * list loc) :=
  match ls with
  | [] => Some (h, [])
  | l :: ls =>
      match seen !! l with
      | Some l' =>
          '(h', ls') ← clone_elements h0 ls seen h;
          Some (h', l' :: ls')
      | None =>
          t ← read_target h0 l;
          let '(h1, l') := alloc h (OTarget t) in
          '(h', ls') ← clone_elements h0 ls (<[l := l']> seen) h1;
          Some (h', l' :: ls')
      end
  end.

(** [_.cloneDeep(options)]. *)
Definition cloneDeep (h : heap) (options : loc) : option (heap * loc) :=
  '(sh, a) ← read_options h options;
  ls ← read_array h a;
  '(h1, ls') ← clone_elements h ls ∅ h;
  let '(h2, a') := alloc h1 (OTargets ls') in
  Some (alloc h2 (OOptions sh a')).

(** A client whose [query] works on the store: it is handed the location
    of its request and may write to the store. *)
Record HeapClient := {
  heap_query :
    heap → loc → heap * completion (option (promise (list Series)));
}.

(** The datasource object together with the way in which the [query] of
    each of its members acts on the store. *)
Record HeapDatasource := {
  base : TCMonitorDatasource;
  heap_members : gmap string HeapClient;
}.

Section HeapDispatcher.
Context `{Imports}.

(** [_.filter(array, ['service', service])] on an array of locations. *)
Fixpoint filter_elements (h : heap) (service : option string) (ls : list loc)
    : option (list loc) :=
  match ls with
  | [] => Some []
  | l :: ls =>
      t ← read_target h l;
      rest ← filter_elements h service ls;
      Some (if matchesProperty service t then l :: rest else rest)
  end.

(** The first two statements of the loop body: the clone, and the
    assignment of the filtered array to its [targets].  The result is the
    store, the location of [optionsTemp] and the length of its targets. *)
Definition prepare_branch (h : heap) (options : loc) (service : option string)
    : option (heap * loc * nat) :=
  '(h1, optionsTemp) ← cloneDeep h options;
  '(sh, a) ← read_options h1 optionsTemp;
  ls ← read_array h1 a;
  filtered ← filter_elements h1 service ls;
  let '(h2, a') := alloc h1 (OTargets filtered) in
  Some (<[optionsTemp := OOptions sh a']> h2, optionsTemp, length filtered).

Fixpoint heap_query_forEach (this : HeapDatasource) (options : loc)
    (services : list (option string))
    (promises : list (promise (list Series))) (h : heap)
    : option (heap * completion (list (promise (list Series)))) :=
  match services with
  | [] => Some (h, Normal promises)
  | service :: services =>
      '(h1, optionsTemp, len) ← prepare_branch h options service;
      if bool_decide (0 < len) then
        match heap_members this !! memberName service with
        | None => Some (h1, Throw TypeError)
        | Some client =>
            let '(h2, r) := heap_query client h1 optionsTemp in
            match r with
            | Throw e => Some (h2, Throw e)
            | Normal (Some promiseTemp) =>
                heap_query_forEach this options services
                  (promises ++ [promiseTemp]) h2
            | Normal None =>
                heap_query_forEach this options services promises h2
            end
        end
      else heap_query_forEach this options services promises h1
  end.

(** [query] on the store.  [None] only when [options] is not laid out as a
    request. *)
Definition heap_query_dispatch (this : HeapDatasource) (h : heap) (options : loc)
    : option (heap * completion (promise QueryResponse)) :=
  let services := getSelectedServices (base this) in
  '(h', r) ← heap_query_forEach this options services [] h;
  match r with
  | Throw e => Some (h', Throw e)
  | Normal promises =>
      if bool_decide (length promises = 0) then
        Some (h', Normal (Promise_resolve {| data := [] |}))
      else
        Some (h', Normal (promise_then (λ results, {| data := flatten results |})
                            (Promise_all promises)))
  end.

(** A client respects the frame when it leaves alone every object that it
    cannot reach: it writes only to its own state [private], to the
    objects reachable from its argument, and to objects that it creates;
    and it frees nothing. *)
Definition respects_frame (private : gset loc) (client : HeapClient) : Prop :=
  ∀ h arg,
    dom h ⊆ dom (heap_query client h arg).1 ∧
    ∀ l, l ∈ dom h → l ∉ private → l ∉ reach h arg →
         (heap_query client h arg).1 !! l = h !! l.

(** Every object of [h] that is not part of the clients' state is in
    [h'] as it is in [h]. *)
Definition unchanged (private : gset loc) (h h' : heap) : Prop :=
  dom h ⊆ dom h' ∧
  ∀ l, l ∈ dom h → l ∉ private → h' !! l = h !! l.

(** The [query] of a client on the store completes as its [query] on the
    request that it is handed. *)
Definition client_refines (heap_client : HeapClient) (client : Client) : Prop :=
  ∀ h arg request,
    read_request h arg = Some request →
    (heap_query heap_client h arg).2 = client_query client request.

Definition members_refine (this : HeapDatasource) : Prop :=
  ∀ key,
    match heap_members this !! key, members (base this) !! key with
    | Some heap_client, Some client => client_refines heap_client client
    | None, None => True
    | _, _ => False
    end.

End HeapDispatcher.

(** ** What the dispatcher is expected to compute

    The definitions of this part follow the description of the dispatcher
    rather than its code; the theorems below compare the two. *)

Section Expected.
Context `{Imports}.

(** A descriptor is enabled when its flag is the boolean [true]. *)
Definition enabled (this : TCMonitorDatasource) (d : ServiceDescriptor) : Prop :=
  jsonData (instanceSettings this) !! service d = Some (VBool true).

#[global] Instance enabled_dec this d : Decision (enabled this d).
Proof. unfold enabled. apply _. Defined.

(** The resolver agrees with the service table. *)
Definition resolver_owns_registry : Prop :=
  ∀ d, d ∈ SERVICES → GetServiceFromNamespace (namespace d) = Some (service d).

(** What one iteration of [query] does for [service]: nothing when no
    target is left, otherwise the completion of the client's [query]. *)
Definition query_branch (this : TCMonitorDatasource) (options : Options)
    (service : option string)
    : option (completion (option (promise (list Series)))) :=
  match targets (optionsTemp options service) with
  | [] => None
  | _ :: _ =>
      match members this !! memberName service with
      | None => Some (Throw TypeError)
      | Some client => Some (client_query client (optionsTemp options service))
      end
  end.

(** The iteration for [service] does not throw. *)
Definition branch_returns (this : TCMonitorDatasource) (options : Options)
    (service : option string) : Prop :=
  ∀ e, query_branch this options service ≠ Some (Throw e).

(** The iteration for [service] does not throw and, if it yields a
    promise, the promise is fulfilled. *)
Definition branch_succeeds (this : TCMonitorDatasource) (options : Options)
    (service : option string) : Prop :=
  match query_branch this options service with
  | None | Some (Normal None) => True
  | Some (Normal (Some (Settles _ (Fulfilled _)))) => True
  | _ => False
  end.

(** The series that [service] contributes to the answer. *)
Definition service_block (this : TCMonitorDatasource) (options : Options)
    (service : option string) : list Series :=
  match query_branch this options service with
  | Some (Normal (Some (Settles _ (Fulfilled series)))) => series
  | _ => []
  end.

(** The promise that the iteration for [service] yields, if any. *)
Definition branch_promise (this : TCMonitorDatasource) (options : Options)
    (service : option string) : option (promise (list Series)) :=
  match query_branch this options service with
  | Some (Normal (Some promiseTemp)) => Some promiseTemp
  | _ => None
  end.

(** A target is active when its tag is that of a selected service. *)
Definition active_target (this : TCMonitorDatasource) (t : Target) : bool :=
  existsb (λ service, matchesProperty service t) (getSelectedServices this).

(** The request without the targets of services that are not selected. *)
Definition drop_inactive (this : TCMonitorDatasource) (options : Options) : Options :=
  {| shared := shared options;
     targets := List.filter (active_target this) (targets options) |}.

(** The overall status: the last status that is not ["success"]. *)
Definition overall_status (results : list ClientResult.t) : string :=
  default "success"
    (last (filter (λ s, s ≠ "success") (ClientResult.status <$> results))).

(** The line of the result at position [i], counted from 0. *)
Definition numbered_line (i : nat) (result : ClientResult.t) : string :=
  pretty (S i) +:+ ". " +:+ ClientResult.message result +:+ " " +:+ newline.

Definition report_message (results : list ClientResult.t) : string :=
  foldr String.append "" (imap numbered_line results).

Definition expected_report (results : list ClientResult.t) : TestReport :=
  {| status := overall_status results;
     message := report_message results;
     title := upperFirst (overall_status results) |}.

(** The connectivity test of the client of [service] resolves to [result]. *)
Definition test_resolves (this : TCMonitorDatasource)
    (service : option string) (result : ClientResult.t) : Prop :=
  ∃ client t,
    members this !! memberName service = Some client ∧
    client_testDatasource client = Normal (Settles t (Fulfilled result)).

(** A promise that is fulfilled with [v], at some instant. *)
Definition fulfilled_with {A} (p : promise A) (v : A) : Prop :=
  ∃ t, p = Settles t (Fulfilled v).

(** The rejections among [promises]. *)
Definition rejection_in {A} (promises : list (promise A)) (t : nat) (e : error) : Prop :=
  Settles t (Rejected e) ∈ promises.

(** Two promises that differ at most in the instant at which they settle. *)
Definition same_outcome {A} (p q : promise A) : Prop :=
  match p, q with
  | Settles _ s, Settles _ s' => s = s'
  | Pending, Pending => True
  | _, _ => False
  end.

(** Two datasource objects whose clients answer [options] alike, up to
    the instants at which their promises settle. *)
Definition same_answers (this this' : TCMonitorDatasource) (options : Options) : Prop :=
  instanceSettings this = instanceSettings this' ∧
  ∀ service,
    match query_branch this options service,
          query_branch this' options service with
    | None, None => True
    | Some (Throw e), Some (Throw e') => e = e'
    | Some (Normal None), Some (Normal None) => True
    | Some (Normal (Some p)), Some (Normal (Some q)) => same_outcome p q
    | _, _ => False
    end.

(** The invocation that the iteration for [service] performs, if any. *)
Definition branch_call (options : Options) (service : option string) : option call :=
  match targets (optionsTemp options service) with
  | [] => None
  | _ :: _ => Some (QueryCall (memberName service) (optionsTemp options service))
  end.

(** What one iteration of [testDatasource] does for [service]. *)
Definition test_branch (this : TCMonitorDatasource) (service : option string)
    : completion (promise ClientResult.t) :=
  match members this !! memberName service with
  | None => Throw TypeError
  | Some client => client_testDatasource client
  end.

End Expected.

(** ** A small installation

    Three services and mock clients, on which the statements below can be
    evaluated. *)

Definition demo_services : list ServiceDescriptor :=
  [ {| service := "cvm"; namespace := "QCE/CVM" |};
    {| service := "cdb"; namespace := "QCE/CDB" |};
    {| service := "clb"; namespace := "QCE/LB" |} ].

(** Upper case of a word of ASCII letters, where [_.upperCase] is just
    that. *)
Fixpoint demo_upperCase (s : string) : string :=
  match s with
  | EmptyString => EmptyString
  | String c rest => String (ascii_upper c) (demo_upperCase rest)
  end.

(** A parser that knows four query strings. *)
Definition demo_parse (query : string) : gmap string string :=
  if bool_decide (query = "Namespace=QCE/CVM&Action=DescribeRegions") then
    {[ "namespace" := "QCE/CVM"; "action" := "DescribeRegions" ]}
  else if bool_decide (query = "Namespace=QCE/CVM&Action=") then
    {[ "namespace" := "QCE/CVM"; "action" := "" ]}
  else if bool_decide (query = "Namespace=QCE/CVM") then
    {[ "namespace" := "QCE/CVM" ]}
  else if bool_decide (query = "Namespace=QCE/XYZ&Action=DescribeRegions") then
    {[ "namespace" := "QCE/XYZ"; "action" := "DescribeRegions" ]}
  else ∅.

Definition demo_series (name : string) : Series :=
  {| target := name; datapoints := [(861, 1450754160000); (767, 1450754220000)]%Z |}.

(** A client that answers one series per target at instant [t], offers
    one region and passes its connectivity test. *)
Definition demo_client (name : string) (t : nat) (_ : InstanceSettings) : Client :=
  {| client_query := λ options,
       Normal (Some (Settles t (Fulfilled
         ((λ tg, demo_series (name +:+ "-" +:+ refId tg)) <$> targets options))));
     client_metricFindQuery := λ _,
       Normal (Some (Settles t (Fulfilled [ {| text := "Beijing"; item_value := "ap-beijing" |} ])));
     client_testDatasource :=
       Normal (Settles t (Fulfilled
         {| ClientResult.status := "success"; ClientResult.message := name +:+ " ok" |})) |}.

(** A client all of whose operations are rejected at instant [t]. *)
Definition failing_client (msg : string) (t : nat) (_ : InstanceSettings) : Client :=
  {| client_query := λ _, Normal (Some (Settles t (Rejected (ClientError msg))));
     client_metricFindQuery := λ _, Normal (Some (Settles t (Rejected (ClientError msg))));
     client_testDatasource := Normal (Settles t (Rejected (ClientError msg))) |}.

(** A client whose connectivity test resolves to the given record. *)
Definition reporting_client (st msg : string) (t : nat) (_ : InstanceSettings) : Client :=
  {| client_query := λ _, Normal None;
     client_metricFindQuery := λ _, Normal None;
     client_testDatasource :=
       Normal (Settles t (Fulfilled
         {| ClientResult.status := st; ClientResult.message := msg |})) |}.

(** A client all of whose operations throw. *)
Definition throwing_client (msg : string) (_ : InstanceSettings) : Client :=
  {| client_query := λ _, Throw (ClientError msg);
     client_metricFindQuery := λ _, Throw (ClientError msg);
     client_testDatasource := Throw (ClientError msg) |}.

Definition demo_imports (classes : gmap string (InstanceSettings → Client)) : Imports :=
  {| SERVICES := demo_services;
     Datasources := classes;
     GetServiceFromNamespace := resolveServiceByNamespace demo_services;
     ParseMetricQuery := demo_parse;
     upperCase := demo_upperCase;
     upperFirst := upperFirst_ascii |}.

(** The CVM client is the slowest, the CLB client the fastest. *)
Definition demo_classes : gmap string (InstanceSettings → Client) :=
  {[ "CVMDatasource" := demo_client "cvm" 30;
     "CDBDatasource" := demo_client "cdb" 20;
     "CLBDatasource" := demo_client "clb" 10 ]}.

(** As [demo_classes], but the CDB client fails. *)
Definition faulty_classes : gmap string (InstanceSettings → Client) :=
  {[ "CVMDatasource" := demo_client "cvm" 30;
     "CDBDatasource" := failing_client "cdb down" 20;
     "CLBDatasource" := demo_client "clb" 10 ]}.

(** The CVM test reports an error, the CDB test a timeout. *)
Definition reporting_classes : gmap string (InstanceSettings → Client) :=
  {[ "CVMDatasource" := reporting_client "error" "m1" 30;
     "CDBDatasource" := reporting_client "timeout" "m2" 20;
     "CLBDatasource" := reporting_client "success" "m3" 10 ]}.

Definition demo_settings (flags : list (string * value)) : InstanceSettings :=
  {| jsonData := list_to_map flags |}.

(** The datasource object of the installation with the given clients and
    flags. *)
Definition demo_this (classes : gmap string (InstanceSettings → Client))
    (flags : list (string * value)) : TCMonitorDatasource :=
  @new_TCMonitorDatasource (demo_imports classes) (demo_settings flags).

Definition all_enabled : list (string * value) :=
  [ ("clb", VBool true); ("cdb", VBool true); ("cvm", VBool true) ].

Definition demo_target (svc ref : string) : Target :=
  {| tservice := Some (VStr svc); refId := ref; tnamespace := "" |}.

Definition demo_options : Options :=
  {| shared := {[ "interval" := VStr "30s"; "intervalMs" := VNum 30000 ]};
     targets := [ demo_target "cdb" "A"; demo_target "cvm" "B";
                  demo_target "cdb" "C"; demo_target "clb" "D" ] |}.

(** The request of the installation in a store: the options object at 1,
    its array of targets at 2, the targets at 3 to 6; the object at 7 is
    the clients' own. *)
Definition demo_heap : gmap positive object :=
  {[ 1%positive := OOptions (shared demo_options) 2%positive;
     2%positive := OTargets [3; 4; 5; 6]%positive;
     3%positive := OTarget (demo_target "cdb" "A");
     4%positive := OTarget (demo_target "cvm" "B");
     5%positive := OTarget (demo_target "cdb" "C");
     6%positive := OTarget (demo_target "clb" "D");
     7%positive := OTarget (demo_target "cache" "Z") ]}.

Definition demo_private : gset positive := {[ 7%positive ]}.

(** A client on the store that answers as [client] does and then writes
    to the request that it was handed: it empties the array of targets and
    sets a property. *)
Definition scribbling_client (client : Client) : HeapClient :=
  {| heap_query := λ h arg,
       match read_request h arg, read_options h arg with
       | Some request, Some (sh, a) =>
           (<[arg := OOptions (<["done" := VBool true]> sh) a]>
              (<[a := OTargets []]> h),
            client_query client request)
       | _, _ => (h, Throw TypeError)
       end |}.

Definition demo_heap_this (classes : gmap string (InstanceSettings → Client))
    (flags : list (string * value)) : HeapDatasource :=
  {| base := demo_this classes flags;
     heap_members := scribbling_client <$> members (demo_this classes flags) |}.

(** ** Regions, metrics, zones and instances

    The remaining methods of the datasource object address one member by
    an explicit service key and hand on what the member returns. *)

(** The listing operations of a per-service client.  [client_getZones] is
    [None] for a client without a [getZones] property. *)
Record ListingClient := {
  client_getRegions : completion (promise (list Item));
  client_getMetrics : string → completion (promise (list Item));
  client_getZones : option (string → completion (promise (list Item)));
  client_getInstances :
    string → gmap string value → completion (promise (list Item));
}.

(** What [getZones] returns: the array literal [[]] or what the client
    returned. *)
Inductive returned :=
  | Plain (items : list Item)
  | Promised (p : promise (list Item)).

(** The datasource object together with the listing operations of its
    members. *)
Record ListingDatasource := {
  listing_base : TCMonitorDatasource;
  listing_members : gmap string ListingClient;
}.

Inductive listing_call :=
  | RegionsCall (key : string)
  | MetricsCall (key region : string)
  | ZonesCall (key region : string)
  | InstancesCall (key region : string) (params : gmap string value).

Section Listing.
Context `{Imports}.

Definition getRegions (this : ListingDatasource) (service : string)
    : list listing_call * completion (promise (list Item)) :=
  match listing_members this !! memberName (Some service) with
  | None => ([], Throw TypeError)
  | Some client =>
      ([RegionsCall (memberName (Some service))], client_getRegions client)
  end.


Definition getZones (this : ListingDatasource) (service region : string)
    : list listing_call * completion returned :=
  match listing_members this !! memberName (Some service) with
  | None => ([], Throw TypeError)
  | Some client =>
      match client_getZones client with
      | Some getZones =>
          ([ZonesCall (memberName (Some service)) region],
           match getZones region with
           | Normal p => Normal (Promised p)
           | Throw e => Throw e
           end)
      | None => ([], Normal (Plain []))
      end
  end.


End Listing.

(** ** More of what the dispatcher is expected to compute *)

(** The instant at which a promise settles, if it does. *)
Definition settle_instant {A} (p : promise A) : option nat :=
  match p with
  | Settles t _ => Some t
  | Pending => None
  end.

(** The latest of the instants at which the promises settle. *)
Definition latest_instant {A} (promises : list (promise A)) : nat :=
  foldr max 0 (omap settle_instant promises).

(** The result reports a success. *)
Definition succeeded (result : ClientResult.t) : Prop :=
  ClientResult.status result = "success".

#[global] Instance succeeded_dec result : Decision (succeeded result).
Proof. unfold succeeded. apply _. Defined.

(** ** More of the small installation *)

(** A client whose promises never settle. *)
Definition pending_client (_ : InstanceSettings) : Client :=
  {| client_query := λ _, Normal (Some Pending);
     client_metricFindQuery := λ _, Normal (Some Pending);
     client_testDatasource := Normal Pending |}.

(** As [demo_classes], but the CDB client never answers. *)
Definition stalled_classes : gmap string (InstanceSettings → Client) :=
  <["CDBDatasource" := pending_client]> demo_classes.

(** As [demo_classes], but the CDB client throws. *)
Definition throwing_classes : gmap string (InstanceSettings → Client) :=
  <["CDBDatasource" := throwing_client "boom"]> demo_classes.

(** As [demo_classes], without a class for CDB. *)
Definition partial_classes : gmap string (InstanceSettings → Client) :=
  delete "CDBDatasource" demo_classes.

Definition demo_regions : list Item :=
  [ {| text := "Beijing"; item_value := "ap-beijing" |} ].

Definition demo_zones (region : string) : list Item :=
  [ {| text := region +:+ "-1"; item_value := region +:+ "-1" |} ].

(** A listing client with or without zones. *)
Definition demo_listing_client (with_zones : bool) : ListingClient :=
  {| client_getRegions := Normal (Settles 5 (Fulfilled demo_regions));
     client_getMetrics := λ _, Normal (Settles 5 (Fulfilled []));
     client_getZones :=
       if with_zones
       then Some (λ region, Normal (Settles 5 (Fulfilled (demo_zones region))))
       else None;
     client_getInstances := λ _ _, Normal (Settles 5 (Fulfilled [])) |}.

(** CVM lists zones, CDB does not, and there is no member for CLB. *)
Definition demo_listing : ListingDatasource :=
  {| listing_base := demo_this demo_classes [];
     listing_members :=
       {[ "CVMDatasource" := demo_listing_client true;
          "CDBDatasource" := demo_listing_client false ]} |}.

(** * Properties *)

(** ** Strings and promises *)

Lemma string_app_cons c (s1 s2 : string) :
  String c s1 +:+ s2 = String c (s1 +:+ s2).
Proof. reflexivity. Qed.

Lemma string_app_assoc (s1 s2 s3 : string) :
  (s1 +:+ s2) +:+ s3 = s1 +:+ (s2 +:+ s3).
Proof.
  induction s1 as [|c s1 IH]; [done|].
  rewrite !string_app_cons. by rewrite IH.
Qed.

Lemma string_app_empty_r (s : string) : s +:+ "" = s.
Proof.
  induction s as [|c s IH]; [done|]. rewrite string_app_cons. by rewrite IH.
Qed.

Lemma Promise_all_cons {A} (p : promise A) ps :
  Promise_all (p :: ps) = all_step p (Promise_all ps).
Proof. done. Qed.

(** [Promise.all] of fulfilled promises is fulfilled with their values, in
    the order of the list, whatever the instants. *)
Lemma Promise_all_fulfilled {A} (promises : list (promise A)) (vs : list A) :
  Forall2 fulfilled_with promises vs →
  fulfilled_with (Promise_all promises) vs.
Proof.
  induction 1 as [|p v ps vs [t ->] _ [t' IH]].
  - by exists 0.
  - rewrite Promise_all_cons, IH. simpl. by eexists.
Qed.

(** Either [Promise.all] is rejected, with the earliest rejection of the
    list, or nothing in the list is rejected and neither is it. *)
Lemma Promise_all_cases {A} (promises : list (promise A)) :
  (∃ t e, Promise_all promises = Settles t (Rejected e) ∧
          rejection_in promises t e ∧
          ∀ t1 e1, rejection_in promises t1 e1 → t ≤ t1)
  ∨ ((∀ t1 e1, ¬ rejection_in promises t1 e1) ∧
     ∀ t1 e1, Promise_all promises ≠ Settles t1 (Rejected e1)).
Proof.
  unfold rejection_in.
  induction promises as [|q qs IH].
  { right. split; [intros ?? []%elem_of_nil | done]. }
  rewrite Promise_all_cons.
  destruct IH as [(t & e & -> & Hin & Hmin) | [Hno Hne]].
  - left. destruct q as [tq [vq|eq]|]; simpl.
    + exists t, e. split_and!; [done|set_solver|].
      intros t1 e1 [?|?]%elem_of_cons; [done|eauto].
    + case_bool_decide.
      * exists t, e. split_and!; [done|set_solver|].
        intros t1 e1 [?|?]%elem_of_cons; [simplify_eq; lia|eauto].
      * exists tq, eq. split_and!; [done|set_solver|].
        intros t1 e1 [?|Hq]%elem_of_cons; [simplify_eq; lia|].
        apply Hmin in Hq. lia.
    + exists t, e. split_and!; [done|set_solver|].
      intros t1 e1 [?|?]%elem_of_cons; [done|eauto].
  - destruct q as [tq [vq|eq]|].
    + right. split.
      * intros t1 e1 [?|?]%elem_of_cons; [done|]. by eapply Hno.
      * intros t1 e1.
        destruct (Promise_all qs) as [t0 [v0|e0]|] eqn:E; simpl; try done;
          by destruct (Hne t0 e0).
    + left. exists tq, eq. split_and!; [|set_solver|].
      * destruct (Promise_all qs) as [t0 [v0|e0]|] eqn:E; simpl; try done;
          by destruct (Hne t0 e0).
      * intros t1 e1 [?|Hq]%elem_of_cons; [simplify_eq; lia|].
        by destruct (Hno _ _ Hq).
    + right. split.
      * intros t1 e1 [?|?]%elem_of_cons; [done|]. by eapply Hno.
      * intros t1 e1.
        destruct (Promise_all qs) as [t0 [v0|e0]|] eqn:E; simpl; try done;
          by destruct (Hne t0 e0).
Qed.

(** [Promise.all] is rejected as soon as one promise is: with the reason
    of one of the rejected promises, none of which is rejected earlier. *)
Lemma Promise_all_rejected {A} (promises : list (promise A)) t e :
  rejection_in promises t e →
  ∃ t' e',
    Promise_all promises = Settles t' (Rejected e') ∧
    rejection_in promises t' e' ∧
    ∀ t1 e1, rejection_in promises t1 e1 → t' ≤ t1.
Proof.
  intros Hin. destruct (Promise_all_cases promises) as [?|[Hno _]]; [done|].
  by destruct (Hno _ _ Hin).
Qed.

(** ** The selected services *)

Section DispatcherFacts.
Context `{Imports}.

Lemma strict_eq_true_enabled this d :
  strict_eq_true (get_prop (jsonData (instanceSettings this)) (service d)) = true
  ↔ enabled this d.
Proof.
  unfold enabled, get_prop.
  destruct (jsonData (instanceSettings this) !! service d) as [[| |[]| |]|];
    simpl; naive_solver.
Qed.

Lemma getNamespaces_loop this acc l :
  foldl
    (λ namespaces svc,
       if strict_eq_true
            (get_prop (jsonData (instanceSettings this)) (service svc))
       then namespaces ++ [namespace svc]
       else namespaces)
    acc l
  = acc ++ (namespace <$> filter (enabled this) l).
Proof.
  revert acc. induction l as [|d l IH]; intros acc; simpl.
  - by rewrite app_nil_r.
  - rewrite IH, filter_cons.
    destruct (strict_eq_true _) eqn:E.
    + apply strict_eq_true_enabled in E. rewrite decide_True by done.
      by rewrite fmap_cons, <- app_assoc.
    + rewrite decide_False; [done|].
      intros Hd%strict_eq_true_enabled. congruence.
Qed.

Lemma getNamespaces_filter this :
  getNamespaces this = namespace <$> filter (enabled this) SERVICES.
Proof. unfold getNamespaces. by rewrite getNamespaces_loop. Qed.

Lemma getSelectedServices_filter this :
  getSelectedServices this
  = (λ d, GetServiceFromNamespace (namespace d)) <$> filter (enabled this) SERVICES.
Proof.
  unfold getSelectedServices. rewrite getNamespaces_filter.
  by rewrite <- list_fmap_compose.
Qed.

Lemma getSelectedServices_none this :
  (∀ d, d ∈ SERVICES → ¬ enabled this d) → getSelectedServices this = [].
Proof.
  intros Hno. rewrite getSelectedServices_filter.
  induction SERVICES as [|d l IH]; [done|].
  rewrite filter_cons, decide_False by (apply Hno; left).
  apply IH. intros d' Hd'. apply Hno. by right.
Qed.

(** C2. [getSelectedServices] returns the service keys of the descriptors
    whose flag is strictly equal to the boolean [true], in the order of the
    service table, each key being the resolver's answer for the namespace
    of its descriptor; it returns the empty list when no flag is enabled;
    and the order in which the flags are listed in the configuration plays
    no role. *)
Theorem getSelectedServices_registry_order (this : TCMonitorDatasource) :
  resolver_owns_registry →
  getSelectedServices this
    = (λ d, Some (service d)) <$> filter (enabled this) SERVICES
  ∧ getSelectedServices this
    = (λ d, GetServiceFromNamespace (namespace d)) <$> filter (enabled this) SERVICES
  ∧ ((∀ d, d ∈ SERVICES → ¬ enabled this d) → getSelectedServices this = [])
  ∧ (∀ (flags flags' : list (string * value)) ms,
       NoDup flags.*1 → flags ≡ₚ flags' →
       getSelectedServices
         {| instanceSettings := {| jsonData := list_to_map flags |}; members := ms |}
       = getSelectedServices
         {| instanceSettings := {| jsonData := list_to_map flags' |}; members := ms |}).
Proof.
  intros Howns. split_and!.
  - rewrite getSelectedServices_filter. apply list_fmap_ext.
    intros i d Hd. apply Howns.
    apply list_elem_of_lookup_2 in Hd. by apply list_elem_of_filter in Hd as [_ ?].
  - apply getSelectedServices_filter.
  - apply getSelectedServices_none.
  - intros flags flags' ms Hnodup Hperm.
    by rewrite (list_to_map_proper flags flags').
Qed.

(** ** The connectivity test *)

Lemma test_for_spec results i status0 message0 :
  test_for results i status0 message0
  = (default status0
       (last (filter (λ s, s ≠ "success") (ClientResult.status <$> results))),
     message0 +:+ foldr String.append "" (imap (λ j, numbered_line (i + j)) results)).
Proof.
  revert i status0 message0.
  induction results as [|r rs IH]; intros i status0 message0.
  { simpl. by rewrite string_app_empty_r. }
  cbn [test_for]. replace (i + 1) with (S i) by lia.
  rewrite IH. clear IH. f_equal.
  - rewrite fmap_cons, filter_cons. case_bool_decide; case_decide; try done.
    rewrite last_cons. by destruct (last _).
  - rewrite imap_cons. cbn [foldr].
    rewrite (imap_ext (λ j, numbered_line (S i + j)) ((λ j, numbered_line (i + j)) ∘ S)).
    2:{ intros j x _. simpl. f_equal. lia. }
    unfold numbered_line at 2. rewrite Nat.add_0_r.
    by rewrite !string_app_assoc.
Qed.

Lemma test_reduce_spec results : test_reduce results = expected_report results.
Proof.
  unfold test_reduce. rewrite test_for_spec. done.
Qed.

Lemma test_forEach_returns this services promises log :
  (∀ s, s ∈ services → ∀ e, test_branch this s ≠ Throw e) →
  ∃ ps,
    test_forEach this services promises log
      = (log ++ (TestCall ∘ memberName <$> services), Normal (promises ++ ps))
    ∧ Forall2 (λ s p, test_branch this s = Normal p) services ps.
Proof.
  revert promises log.
  induction services as [|s services IH]; intros promises log Hret.
  { exists []. by rewrite !app_nil_r. }
  pose proof (Hret s ltac:(left)) as Hs. unfold test_branch in Hs.
  cbn [test_forEach].
  destruct (members this !! memberName s) as [client|] eqn:Hm; [|by destruct (Hs TypeError)].
  destruct (client_testDatasource client) as [p|e] eqn:Hc; [|by destruct (Hs e)].
  destruct (IH (promises ++ [p]) (log ++ [TestCall (memberName s)])) as (ps & -> & Hps).
  { intros s' Hs'. apply Hret. by right. }
  exists (p :: ps). split.
  - by rewrite <- !app_assoc.
  - constructor; [|done]. unfold test_branch. by rewrite Hm.
Qed.

Lemma test_forEach_resolves this services results promises log :
  Forall2 (test_resolves this) services results →
  ∃ ps,
    test_forEach this services promises log
      = (log ++ (TestCall ∘ memberName <$> services), Normal (promises ++ ps))
    ∧ Forall2 fulfilled_with ps results.
Proof.
  intros Hres. revert promises log.
  induction Hres as [|s r services results (client & t & Hm & Hc) _ IH];
    intros promises log.
  { exists []. by rewrite !app_nil_r. }
  cbn [test_forEach]. rewrite Hm, Hc.
  destruct (IH (promises ++ [Settles t (Fulfilled r)])
               (log ++ [TestCall (memberName s)])) as (ps & -> & Hps).
  exists (Settles t (Fulfilled r) :: ps). split.
  - by rewrite <- !app_assoc.
  - constructor; [by exists t|done].
Qed.

(** C1. When the connectivity tests of the selected services resolve to
    the results [results], of which there is at least one, [testDatasource]
    resolves to the record whose status is the last status other than
    ["success"], or ["success"] when there is none; whose message consists
    of one line per result, with its position counted from 1 and its
    message, in the order of the results; and whose title is the status
    with its first letter in upper case, as [_.upperFirst] of lodash puts
    it. *)
Theorem testDatasource_reduces_results (this : TCMonitorDatasource)
    (results : list ClientResult.t) :
  results ≠ [] →
  Forall2 (test_resolves this) (getSelectedServices this) results →
  ∃ t,
    testDatasource this
    = (TestCall ∘ memberName <$> getSelectedServices this,
       Normal (Settles t (Fulfilled
         {| status := overall_status results;
            message := report_message results;
            title := upperFirst (overall_status results) |}))).
Proof.
  intros Hne Hres. unfold testDatasource.
  destruct (test_forEach_resolves this _ _ [] [] Hres) as (ps & -> & Hps).
  rewrite !app_nil_l.
  destruct (Promise_all_fulfilled _ _ Hps) as [t Hall].
  rewrite bool_decide_false.
  - exists t. rewrite Hall. simpl. by rewrite test_reduce_spec.
  - apply Forall2_length in Hps. destruct results; [done|]. simpl in Hps. lia.
Qed.

(** C6. With no service enabled, [testDatasource] invokes no client and
    returns a promise that is already fulfilled with the fixed record:
    status ["error"], title ["Error"] and the fixed explanation. *)
Theorem testDatasource_nothing_configured (this : TCMonitorDatasource) :
  (∀ d, d ∈ SERVICES → ¬ enabled this d) →
  testDatasource this
  = ([], Normal (Settles 0 (Fulfilled
       {| status := "error";
          message := "Nothing configured. At least one of the API's services must be configured.";
          title := "Error" |}))).
Proof.
  intros Hno. unfold testDatasource.
  by rewrite getSelectedServices_none.
Qed.

(** C9, as the code has it.  When no connectivity test throws, every
    selected client is invoked; if one of the promises is rejected, the
    promise of [testDatasource] is rejected too, with the reason of the
    earliest rejection as it is, and no record is produced.  When the
    invocation for a service throws and none before it does, [testDatasource]
    throws the same error. *)
Theorem testDatasource_fails_as_a_whole (this : TCMonitorDatasource) :
  (∀ s t e,
     s ∈ getSelectedServices this →
     (∀ s', s' ∈ getSelectedServices this → ∀ e', test_branch this s' ≠ Throw e') →
     test_branch this s = Normal (Settles t (Rejected e)) →
     ∃ t' e' s',
       testDatasource this
       = (TestCall ∘ memberName <$> getSelectedServices this,
          Normal (Settles t' (Rejected e')))
       ∧ s' ∈ getSelectedServices this
       ∧ test_branch this s' = Normal (Settles t' (Rejected e'))
       ∧ t' ≤ t)
  ∧ (∀ before s after e,
       getSelectedServices this = before ++ s :: after →
       (∀ s', s' ∈ before → ∀ e', test_branch this s' ≠ Throw e') →
       test_branch this s = Throw e →
       (testDatasource this).2 = Throw e).
Proof.
  split.
  - intros s t e Hs Hret Hrej. unfold testDatasource.
    destruct (test_forEach_returns this _ [] [] Hret) as (ps & -> & Hps).
    rewrite !app_nil_l.
    assert (rejection_in ps t e) as Hin.
    { apply list_elem_of_lookup in Hs as [i Hi].
      destruct (Forall2_lookup_l _ _ _ _ _ Hps Hi) as (p & Hp & Hb).
      rewrite Hrej in Hb. injection Hb as <-.
      by eapply list_elem_of_lookup_2. }
    destruct (Promise_all_rejected ps t e Hin) as (t' & e' & Hall & Hin' & Hmin).
    rewrite bool_decide_false.
    2:{ intros Hlen. apply nil_length_inv in Hlen. subst ps.
        by apply elem_of_nil in Hin. }
    rewrite Hall. simpl.
    apply list_elem_of_lookup in Hin' as [j Hj].
    destruct (Forall2_lookup_r _ _ _ _ _ Hps Hj) as (s' & Hs' & Hb').
    exists t', e', s'. split_and!; [done| |done|by eapply Hmin].
    by eapply list_elem_of_lookup_2.
  - intros before s after e Hsplit Hret Hthrow. unfold testDatasource.
    rewrite Hsplit.
    assert (∀ promises log,
      (test_forEach this (before ++ s :: after) promises log).2 = Throw e) as Hloop.
    2:{ specialize (Hloop [] []).
        destruct (test_forEach this (before ++ s :: after) [] []) as [log [ps|e']];
          simpl in *; congruence. }
    clear Hsplit. induction before as [|b before IH]; intros promises log.
    + unfold test_branch in Hthrow. simpl.
      destruct (members this !! memberName s) as [client|]; [|by simplify_eq].
      by rewrite Hthrow.
    + pose proof (Hret b ltac:(left)) as Hb. unfold test_branch in Hb.
      simpl.
      destruct (members this !! memberName b) as [client|]; [|by destruct (Hb TypeError)].
      destruct (client_testDatasource client) as [p|e0]; [|by destruct (Hb e0)].
      apply IH. intros s' Hs'. apply Hret. by right.
Qed.

(** ** Queries *)

Lemma query_forEach_skip this options s services promises log :
  targets (optionsTemp options s) = [] →
  query_forEach this options (s :: services) promises log
  = query_forEach this options services promises log.
Proof. intros Hnil. cbn [query_forEach]. by rewrite Hnil. Qed.

(** C7. When no selected service has a matching target, in particular
    when no service is selected, [query] invokes no client and returns a
    promise that is already fulfilled with the empty answer. *)
Theorem query_without_invocations (this : TCMonitorDatasource) (options : Options) :
  (∀ s, s ∈ getSelectedServices this → targets (optionsTemp options s) = []) →
  query this options = ([], Normal (Settles 0 (Fulfilled {| data := [] |}))).
Proof.
  intros Hnone. unfold query.
  assert (query_forEach this options (getSelectedServices this) [] []
          = ([], Normal [])) as ->; [|done].
  induction (getSelectedServices this) as [|s services IH]; [done|].
  rewrite query_forEach_skip by (apply Hnone; left).
  apply IH. intros s' Hs'. apply Hnone. by right.
Qed.

Lemma query_forEach_step this options s services promises log :
  query_forEach this options (s :: services) promises log
  = match targets (optionsTemp options s) with
    | [] => query_forEach this options services promises log
    | _ :: _ =>
        match members this !! memberName s with
        | None => (log, Throw TypeError)
        | Some client =>
            let log' := log ++ [QueryCall (memberName s) (optionsTemp options s)] in
            match client_query client (optionsTemp options s) with
            | Throw e => (log', Throw e)
            | Normal (Some p) =>
                query_forEach this options services (promises ++ [p]) log'
            | Normal None => query_forEach this options services promises log'
            end
        end
    end.
Proof. cbn [query_forEach]. by destruct (targets (optionsTemp options s)). Qed.

(** Every invocation of the loop is that of a service of the list, on the
    request filtered for that service, which has a target. *)
Lemma query_forEach_log this options services promises log c :
  c ∈ (query_forEach this options services promises log).1 →
  c ∈ log ∨ ∃ s, s ∈ services ∧ branch_call options s = Some c.
Proof.
  revert promises log.
  induction services as [|s services IH]; intros promises log; [by left|].
  rewrite query_forEach_step.
  assert (∀ ps, c ∈ (query_forEach this options services ps
                       (log ++ [QueryCall (memberName s) (optionsTemp options s)])).1 →
                targets (optionsTemp options s) ≠ [] →
                c ∈ log ∨ ∃ s0, s0 ∈ s :: services ∧ branch_call options s0 = Some c)
    as Hnext.
  { intros ps [[Hc|Hc%list_elem_of_singleton]%elem_of_app|(s0 & Hs0 & Hc)]%IH Hne.
    - by left.
    - right. exists s. split; [by left|]. unfold branch_call.
      destruct (targets (optionsTemp options s)); [done|]. by rewrite Hc.
    - right. exists s0. split; [by right|done]. }
  destruct (targets (optionsTemp options s)) as [|tg tgs] eqn:Htg.
  { intros [?|(s0 & Hs0 & Hc)]%IH; [by left|].
    right. exists s0. split; [by right|done]. }
  destruct (members this !! memberName s) as [client|]; [|by left].
  cbn zeta. destruct (client_query client _) as [[p|]|e]; simpl.
  - intros Hc. by eapply Hnext.
  - intros Hc. by eapply Hnext.
  - intros [Hc|Hc%list_elem_of_singleton]%elem_of_app; [by left|].
    right. exists s. split; [by left|]. unfold branch_call.
    by rewrite Htg, Hc.
Qed.

(** When no iteration throws, the loop collects the invocations and the
    promises of the services, in their order. *)
Lemma query_forEach_returns this options services promises log :
  (∀ s, s ∈ services → branch_returns this options s) →
  query_forEach this options services promises log
  = (log ++ omap (branch_call options) services,
     Normal (promises ++ omap (branch_promise this options) services)).
Proof.
  revert promises log.
  induction services as [|s services IH]; intros promises log Hret.
  { simpl. by rewrite !app_nil_r. }
  pose proof (Hret s ltac:(left)) as Hs.
  assert (∀ s', s' ∈ services → branch_returns this options s') as Hret'
    by (intros s' Hs'; apply Hret; by right).
  rewrite query_forEach_step. cbn [omap list_omap].
  unfold branch_returns in Hs.
  unfold branch_call at 1, branch_promise at 1. unfold query_branch in *.
  destruct (targets (optionsTemp options s)) as [|tg tgs]; [by apply IH|].
  destruct (members this !! memberName s) as [client|]; [|by destruct (Hs TypeError)].
  cbn zeta.
  destruct (client_query client _) as [[p|]|e]; [| |by destruct (Hs e)].
  - rewrite IH by done. by rewrite <- !app_assoc.
  - rewrite IH by done. by rewrite <- !app_assoc.
Qed.

Lemma filter_filter_implied {A} (f g : A → bool) (l : list A) :
  (∀ x, f x = true → g x = true) →
  List.filter f (List.filter g l) = List.filter f l.
Proof.
  intros Himp. induction l as [|x l IH]; [done|]. simpl.
  destruct (g x) eqn:Hg, (f x) eqn:Hf; simpl; rewrite ?Hf, ?IH; try done.
  apply Himp in Hf. congruence.
Qed.

Lemma filter_sublist {A} (f : A → bool) (l : list A) :
  sublist (List.filter f l) l.
Proof.
  induction l as [|x l IH]; simpl; [constructor|].
  destruct (f x); by constructor.
Qed.

Lemma elem_of_List_filter {A} (f : A → bool) (l : list A) x :
  x ∈ List.filter f l ↔ x ∈ l ∧ f x = true.
Proof. rewrite !list_elem_of_In. apply filter_In. Qed.

Lemma active_target_spec this t :
  active_target this t = true
  ↔ ∃ s, s ∈ getSelectedServices this ∧ matchesProperty s t = true.
Proof.
  unfold active_target. rewrite existsb_exists.
  by setoid_rewrite list_elem_of_In.
Qed.

Lemma optionsTemp_drop_inactive this options s :
  s ∈ getSelectedServices this →
  optionsTemp (drop_inactive this options) s = optionsTemp options s.
Proof.
  intros Hs. unfold optionsTemp, drop_inactive. simpl. f_equal.
  apply filter_filter_implied. intros t Ht.
  apply active_target_spec. eauto.
Qed.

Lemma query_forEach_drop_inactive this options services promises log :
  (∀ s, s ∈ services → s ∈ getSelectedServices this) →
  query_forEach this (drop_inactive this options) services promises log
  = query_forEach this options services promises log.
Proof.
  revert promises log.
  induction services as [|s services IH]; intros promises log Hsub; [done|].
  assert (∀ s', s' ∈ services → s' ∈ getSelectedServices this) as Hsub'
    by (intros s' Hs'; apply Hsub; by right).
  rewrite !query_forEach_step.
  rewrite optionsTemp_drop_inactive by (apply Hsub; left).
  destruct (targets (optionsTemp options s)); [by apply IH|].
  destruct (members this !! memberName s) as [client|]; [|done].
  cbn zeta. destruct (client_query client _) as [[p|]|e]; [| |done]; by apply IH.
Qed.

(** C3. Every client invocation of [query] is that of a selected service,
    on a request whose targets are those targets of the caller's request
    that carry the key of this service, in their order, and there is at
    least one of them.  A target that carries the key of no selected
    service is handed to no client, and the result of [query] is what it
    would be without such targets. *)
Theorem query_partitions_targets (this : TCMonitorDatasource) (options : Options) :
  (∀ key request,
     QueryCall key request ∈ (query this options).1 →
     ∃ s, s ∈ getSelectedServices this
          ∧ key = memberName s
          ∧ shared request = shared options
          ∧ targets request = List.filter (matchesProperty s) (targets options)
          ∧ sublist (targets request) (targets options)
          ∧ targets request ≠ [])
  ∧ (∀ t key request,
       active_target this t = false →
       QueryCall key request ∈ (query this options).1 →
       t ∉ targets request)
  ∧ (∀ c, c ∈ (query this options).1 → ∃ key request, c = QueryCall key request)
  ∧ query this (drop_inactive this options) = query this options.
Proof.
  assert (∀ c, c ∈ (query this options).1 →
            ∃ s, s ∈ getSelectedServices this ∧ branch_call options s = Some c)
    as Hlog.
  { intros c. unfold query.
    pose proof (query_forEach_log this options (getSelectedServices this) [] [] c) as Hc.
    destruct (query_forEach this options (getSelectedServices this) [] [])
      as [log [ps|e]]; [case_bool_decide|]; simpl in *;
      intros [[]%elem_of_nil|?]%Hc; done. }
  assert (∀ key request,
     QueryCall key request ∈ (query this options).1 →
     ∃ s, s ∈ getSelectedServices this
          ∧ key = memberName s
          ∧ request = optionsTemp options s
          ∧ targets request ≠ []) as Hcalls.
  { intros key request (s & Hs & Hc)%Hlog. exists s. unfold branch_call in Hc.
    destruct (targets (optionsTemp options s)) eqn:Htg; [done|].
    injection Hc as <- <-. by rewrite Htg. }
  split_and!.
  - intros key request (s & Hs & -> & -> & Hne)%Hcalls.
    exists s. split_and!; try done. apply filter_sublist.
  - intros t key request Hinactive (s & Hs & -> & -> & Hne)%Hcalls Ht.
    apply elem_of_List_filter in Ht as [_ Ht].
    assert (active_target this t = true) by (apply active_target_spec; eauto).
    congruence.
  - intros c (s & Hs & Hc)%Hlog. unfold branch_call in Hc.
    destruct (targets (optionsTemp options s)); [done|]. injection Hc as <-. eauto.
  - unfold query. by rewrite query_forEach_drop_inactive.
Qed.

Lemma getSelectedServices_settings this this' :
  instanceSettings this = instanceSettings this' →
  getSelectedServices this = getSelectedServices this'.
Proof.
  intros Heq. unfold getSelectedServices, getNamespaces. by rewrite Heq.
Qed.

Lemma branch_succeeds_returns this options s :
  branch_succeeds this options s → branch_returns this options s.
Proof.
  unfold branch_succeeds, branch_returns. intros Hs e He. by rewrite He in Hs.
Qed.

(** The promises of successful iterations are fulfilled, and their values
    put together are the blocks of the services put together. *)
Lemma branch_promises_fulfilled this options services :
  (∀ s, s ∈ services → branch_succeeds this options s) →
  ∃ vs, Forall2 fulfilled_with (omap (branch_promise this options) services) vs
        ∧ concat vs = concat (service_block this options <$> services).
Proof.
  induction services as [|s services IH]; intros Hok.
  { exists []. split; [constructor|done]. }
  destruct IH as (vs & Hvs & Hconcat).
  { intros s' Hs'. apply Hok. by right. }
  pose proof (Hok s ltac:(left)) as Hs.
  unfold branch_succeeds in Hs.
  cbn [omap list_omap fmap list_fmap]. unfold branch_promise at 1, service_block at 1.
  destruct (query_branch this options s) as [[[[t [v|e]|]|]|e]|]; try done.
  - exists (v :: vs). split; [constructor; [by exists t|done]|].
    simpl. by rewrite Hconcat.
  - by exists vs.
  - by exists vs.
Qed.

Lemma query_all_succeed this options :
  (∀ s, s ∈ getSelectedServices this → branch_succeeds this options s) →
  ∃ t,
    query this options
    = (omap (branch_call options) (getSelectedServices this),
       Normal (Settles t (Fulfilled
         {| data := concat (service_block this options <$> getSelectedServices this) |}))).
Proof.
  intros Hok. unfold query.
  rewrite query_forEach_returns by (intros s Hs; by apply branch_succeeds_returns, Hok).
  rewrite !app_nil_l.
  destruct (branch_promises_fulfilled this options _ Hok) as (vs & Hvs & Hconcat).
  destruct (Promise_all_fulfilled _ _ Hvs) as [t Hall].
  case_bool_decide as Hlen.
  - exists 0. unfold Promise_resolve. do 4 f_equal.
    apply nil_length_inv in Hlen. rewrite Hlen in Hvs.
    apply Forall2_nil_inv_l in Hvs. subst vs. by rewrite <- Hconcat.
  - exists t. rewrite Hall. simpl. unfold flatten. by rewrite Hconcat.
Qed.

Lemma same_answers_succeeds this this' options s :
  same_answers this this' options →
  branch_succeeds this options s →
  branch_succeeds this' options s
  ∧ service_block this' options s = service_block this options s.
Proof.
  intros [_ Hsame]. specialize (Hsame s).
  unfold branch_succeeds, service_block.
  destruct (query_branch this options s) as [[[[t [v|e]|]|]|e]|],
           (query_branch this' options s) as [[[[t' [v'|e']|]|]|e']|];
    simpl in *; try done.
  intros _. by simplify_eq.
Qed.

(** C4. When every invoked client succeeds, the promise of [query] is
    fulfilled, and its [data] are the series of the clients put together:
    the block of each enabled service, blocks in the order of the service
    table.  The instants at which the clients complete play no role: with
    clients that give the same answers at other instants, the [data] are
    the same. *)
Theorem query_flattens_in_registry_order (this : TCMonitorDatasource)
    (options : Options) :
  (∀ s, s ∈ getSelectedServices this → branch_succeeds this options s) →
  let merged :=
    concat ((λ d, service_block this options (GetServiceFromNamespace (namespace d)))
              <$> filter (enabled this) SERVICES) in
  (∃ t, (query this options).2 = Normal (Settles t (Fulfilled {| data := merged |})))
  ∧ (∀ this', same_answers this this' options →
       ∃ t', (query this' options).2
             = Normal (Settles t' (Fulfilled {| data := merged |}))).
Proof.
  intros Hok merged.
  assert (merged = concat (service_block this options <$> getSelectedServices this))
    as Hmerged.
  { unfold merged. rewrite getSelectedServices_filter.
    by rewrite <- list_fmap_compose. }
  split.
  - destruct (query_all_succeed this options Hok) as [t ->].
    exists t. simpl. by rewrite Hmerged.
  - intros this' Hsame.
    pose proof (getSelectedServices_settings this this' (proj1 Hsame)) as Hsel.
    destruct (query_all_succeed this' options) as [t' ->].
    { intros s Hs. rewrite <- Hsel in Hs.
      by apply (same_answers_succeeds this this' options s Hsame), Hok. }
    exists t'. simpl. rewrite Hmerged, <- Hsel. do 5 f_equal.
    apply list_fmap_ext. intros i s Hs.
    apply (same_answers_succeeds this this' options s Hsame), Hok.
    by eapply list_elem_of_lookup_2.
Qed.

Lemma elem_of_omap_branch_promise this options
    (services : list (option string)) (p : promise (list Series)) :
  p ∈ omap (branch_promise this options) services
  ↔ ∃ s, s ∈ services ∧ branch_promise this options s = Some p.
Proof. apply list_elem_of_omap. Qed.

(** C5. [query] fails as a whole when a client fails.  If an iteration
    throws, and none before it does, [query] throws the same error.  If no
    iteration throws and the promise of a client is rejected, the promise
    of [query] is rejected, with the reason of a client as it is: that of
    the rejection that comes first.  In neither case is there an answer
    made of the results of the other clients. *)
Theorem query_fails_as_a_whole (this : TCMonitorDatasource) (options : Options) :
  (∀ before s after e,
     getSelectedServices this = before ++ s :: after →
     (∀ s', s' ∈ before → branch_returns this options s') →
     query_branch this options s = Some (Throw e) →
     (query this options).2 = Throw e)
  ∧ (∀ s t e,
       s ∈ getSelectedServices this →
       (∀ s', s' ∈ getSelectedServices this → branch_returns this options s') →
       branch_promise this options s = Some (Settles t (Rejected e)) →
       ∃ t' e' s',
         (query this options).2 = Normal (Settles t' (Rejected e'))
         ∧ s' ∈ getSelectedServices this
         ∧ branch_promise this options s' = Some (Settles t' (Rejected e'))
         ∧ t' ≤ t
         ∧ ((∀ s1 t1 e1, s1 ∈ getSelectedServices this →
               branch_promise this options s1 = Some (Settles t1 (Rejected e1)) →
               e1 = e) → e' = e)).
Proof.
  split.
  - intros before s after e Hsplit Hret Hthrow. unfold query. rewrite Hsplit.
    assert (∀ promises log,
      (query_forEach this options (before ++ s :: after) promises log).2 = Throw e)
      as Hloop.
    2:{ specialize (Hloop [] []).
        destruct (query_forEach this options (before ++ s :: after) [] [])
          as [log [ps|e']]; simpl in *; congruence. }
    clear Hsplit. induction before as [|b before IH]; intros promises log.
    + rewrite app_nil_l, query_forEach_step. unfold query_branch in Hthrow.
      destruct (targets (optionsTemp options s)); [done|].
      destruct (members this !! memberName s) as [client|]; [|by simplify_eq].
      cbn zeta. injection Hthrow as ->. done.
    + pose proof (Hret b ltac:(left)) as Hb. unfold branch_returns, query_branch in Hb.
      assert (∀ s', s' ∈ before → branch_returns this options s') as Hret'
        by (intros s' Hs'; apply Hret; by right).
      rewrite <- app_comm_cons, query_forEach_step.
      destruct (targets (optionsTemp options b)); [by apply IH|].
      destruct (members this !! memberName b) as [client|]; [|by destruct (Hb TypeError)].
      cbn zeta.
      destruct (client_query client _) as [[p|]|e0]; [| |by destruct (Hb e0)];
        by apply IH.
  - intros s t e Hs Hret Hrej. unfold query.
    rewrite query_forEach_returns by done. rewrite !app_nil_l.
    set (ps := omap (branch_promise this options) (getSelectedServices this)).
    assert (rejection_in ps t e) as Hin.
    { apply elem_of_omap_branch_promise. eauto. }
    destruct (Promise_all_rejected ps t e Hin) as (t' & e' & Hall & Hin' & Hmin).
    rewrite bool_decide_false.
    2:{ intros Hlen. apply nil_length_inv in Hlen. rewrite Hlen in Hin.
        by apply elem_of_nil in Hin. }
    rewrite Hall. simpl.
    apply elem_of_omap_branch_promise in Hin' as (s' & Hs' & Hp').
    exists t', e', s'. split_and!; try done.
    + by eapply Hmin.
    + intros Honly. by eapply Honly.
Qed.

(** ** Template variables *)

(** C8, as the code has it.  [metricFindQuery] resolves to the empty list,
    and invokes no client, when the parsed query is empty, when it has no
    namespace or no action or an empty one, and when the namespace does not
    resolve to a service key.  When the namespace and the action are there
    and not empty, the namespace resolves to a service key and the client
    of that service is a member of the datasource object, exactly this
    client is invoked, with the parsed query; its result is handed on, a
    falsy one as the empty list.  The configuration plays no role. *)
Theorem metricFindQuery_routes_by_namespace (this : TCMonitorDatasource)
    (query : string) :
  let queries := ParseMetricQuery query in
  ((queries = ∅
    ∨ queries !! "namespace" = None ∨ queries !! "namespace" = Some ""
    ∨ queries !! "action" = None ∨ queries !! "action" = Some ""
    ∨ (∃ ns, queries !! "namespace" = Some ns
             ∧ (GetServiceFromNamespace ns = None
                ∨ GetServiceFromNamespace ns = Some ""))) →
   metricFindQuery this query = ([], Normal (Settles 0 (Fulfilled []))))
  ∧ (∀ ns action s client,
       queries !! "namespace" = Some ns → ns ≠ "" →
       queries !! "action" = Some action → action ≠ "" →
       GetServiceFromNamespace ns = Some s → s ≠ "" →
       members this !! memberName (Some s) = Some client →
       metricFindQuery this query
       = ([MetricFindCall (memberName (Some s)) queries],
          match client_metricFindQuery client queries with
          | Throw e => Throw e
          | Normal (Some result) => Normal result
          | Normal None => Normal (Settles 0 (Fulfilled []))
          end))
  ∧ (∀ settings,
       metricFindQuery {| instanceSettings := settings; members := members this |} query
       = metricFindQuery this query).
Proof.
  intros queries. split_and!.
  - unfold metricFindQuery, or_empty. fold queries.
    intros [->|[Hn|[Hn|[Ha|[Ha|(ns & Hn & Hs)]]]]]; try done.
    + by rewrite Hn, orb_true_r.
    + by rewrite Hn, orb_true_r.
    + rewrite Ha. simpl. by rewrite !orb_true_r.
    + rewrite Ha. simpl. by rewrite !orb_true_r.
    + rewrite Hn. cbn [falsy default].
      destruct (decide (ns = "")) as [->|Hns]; [by rewrite orb_true_r|].
      rewrite (bool_decide_false (ns = "")) by done. cbv iota. unfold id.
      by destruct Hs as [-> | ->]; rewrite orb_true_r.
  - intros ns action s client Hn Hns Ha Haction Hs Hsne Hm.
    unfold metricFindQuery, or_empty. fold queries.
    rewrite Hn, Ha. cbn [falsy default].
    rewrite (bool_decide_false (ns = "")) by done.
    rewrite (bool_decide_false (action = "")) by done. cbv iota. unfold id.
    rewrite Hs. cbn [falsy]. rewrite (bool_decide_false (s = "")) by done.
    rewrite bool_decide_false by (intros Hq; by rewrite Hq in Hn).
    cbn [orb]. rewrite Hm. by destruct (client_metricFindQuery client queries) as [[?|]|].
  - done.
Qed.

End DispatcherFacts.

(** ** The request in the store *)

Section HeapFacts.
Context `{Imports}.

Lemma alloc_spec (h : heap) (o : object) :
  ∃ l, alloc h o = (<[l := o]> h, l) ∧ (l ∉ dom h) ∧ h ⊆ <[l := o]> h.
Proof.
  exists (fresh (dom h)). split_and!; [done|apply is_fresh|].
  apply insert_subseteq, not_elem_of_dom, is_fresh.
Qed.

Lemma read_target_weaken (h h' : heap) l t :
  h ⊆ h' → read_target h l = Some t → read_target h' l = Some t.
Proof.
  unfold read_target. intros Hsub Hr.
  destruct (h !! l) as [[]|] eqn:Hl; simplify_eq.
  by rewrite (lookup_weaken _ _ _ _ Hl Hsub).
Qed.

Lemma read_target_dom (h : heap) l t : read_target h l = Some t → l ∈ dom h.
Proof.
  unfold read_target. intros Hr. apply elem_of_dom.
  by destruct (h !! l).
Qed.

(** The copies of the elements are new objects, that read as the
    originals do; nothing that exists is written. *)
Lemma clone_elements_spec (h0 : heap) (old : gset loc) ls ts seen (h : heap) :
  Forall2 (λ l t, read_target h0 l = Some t) ls ts →
  old ⊆ dom h →
  (∀ l l', seen !! l = Some l' →
     (l' ∉ old) ∧ ∃ t, read_target h0 l = Some t ∧ read_target h l' = Some t) →
  ∃ h' ls',
    clone_elements h0 ls seen h = Some (h', ls')
    ∧ h ⊆ h'
    ∧ Forall (λ l', l' ∉ old) ls'
    ∧ Forall2 (λ l' t, read_target h' l' = Some t) ls' ts.
Proof.
  intros Hread. revert seen h.
  induction Hread as [|l t ls ts Hl _ IH]; intros seen h Hold Hseen.
  { exists h, []. split_and!; [done|done|constructor|constructor]. }
  cbn [clone_elements].
  destruct (seen !! l) as [l'|] eqn:Hsl.
  - destruct (IH seen h Hold Hseen) as (h' & ls' & -> & Hsub & Hnew & Hts).
    destruct (Hseen l l' Hsl) as (Hl' & t' & Ht' & Hrl').
    exists h', (l' :: ls'). simpl. split_and!; [done|done|by constructor|].
    constructor; [|done]. apply (read_target_weaken h); [done|]. congruence.
  - rewrite Hl. cbn [mbind option_bind].
    destruct (alloc_spec h (OTarget t)) as (l' & -> & Hfresh & Hsub1).
    set (h1 := <[l' := OTarget t]> h) in *.
    assert (read_target h1 l' = Some t) as Hins
      by (unfold read_target, h1; by rewrite lookup_insert_eq).
    destruct (IH (<[l := l']> seen) h1) as (h' & ls' & -> & Hsub & Hnew & Hts).
    { etrans; [done|]. by apply subseteq_dom. }
    { intros l2 l2' [[-> ->]|[Hne Hl2]]%lookup_insert_Some.
      - split; [|by exists t]. intros Hin. by apply Hfresh, Hold.
      - destruct (Hseen l2 l2' Hl2) as (? & t2 & ? & ?).
        split; [done|]. exists t2. split; [done|].
        by apply (read_target_weaken h). }
    exists h', (l' :: ls'). simpl. split_and!; [done|by etrans| |].
    + constructor; [|done]. intros Hin. by apply Hfresh, Hold.
    + constructor; [|done]. by apply (read_target_weaken h1).
Qed.

(** What a request in the store consists of. *)
Lemma read_request_Some (h : heap) l request :
  read_request h l = Some request ↔
  ∃ a ls,
    h !! l = Some (OOptions (shared request) a)
    ∧ h !! a = Some (OTargets ls)
    ∧ Forall2 (λ l t, read_target h l = Some t) ls (targets request).
Proof.
  unfold read_request, read_options, read_array. split.
  - intros Hr. destruct (h !! l) as [[| |sh a]|] eqn:Hl; simplify_eq/=.
    destruct (h !! a) as [[|ls|]|] eqn:Ha; simplify_eq/=.
    destruct (mapM (read_target h) ls) as [ts|] eqn:Hts; simplify_eq/=.
    exists a, ls. split_and!; [done|done|]. by apply mapM_Some.
  - intros (a & ls & -> & Ha & Hts). simpl. rewrite Ha. simpl.
    apply mapM_Some in Hts. rewrite Hts. simpl. by destruct request.
Qed.

Lemma reach_request (h : heap) l a ls sh :
  h !! l = Some (OOptions sh a) → h !! a = Some (OTargets ls) →
  reach h l = {[ l ]} ∪ ({[ a ]} ∪ list_to_set ls).
Proof.
  intros Hl Ha. unfold reach, read_options, read_array. by rewrite Hl, Ha.
Qed.

Lemma Forall2_read_target_weaken (h h' : heap) ls ts :
  h ⊆ h' →
  Forall2 (λ l t, read_target h l = Some t) ls ts →
  Forall2 (λ l t, read_target h' l = Some t) ls ts.
Proof.
  intros Hsub Hts. eapply Forall2_impl; [done|].
  intros l t. by apply read_target_weaken.
Qed.

Lemma read_request_weaken (h h' : heap) l request :
  h ⊆ h' → read_request h l = Some request → read_request h' l = Some request.
Proof.
  intros Hsub (a & ls & Hl & Ha & Hts)%read_request_Some.
  apply read_request_Some. exists a, ls.
  split_and!; [by eapply lookup_weaken|by eapply lookup_weaken|].
  by eapply Forall2_read_target_weaken.
Qed.

(** [_.cloneDeep] gives a request made of new objects only, which reads as
    the original, and writes to nothing that exists. *)
Lemma cloneDeep_spec (h : heap) options request :
  read_request h options = Some request →
  ∃ h1 c a' ls',
    cloneDeep h options = Some (h1, c)
    ∧ h ⊆ h1
    ∧ h1 !! c = Some (OOptions (shared request) a')
    ∧ h1 !! a' = Some (OTargets ls')
    ∧ Forall2 (λ l t, read_target h1 l = Some t) ls' (targets request)
    ∧ (c ∉ dom h) ∧ (a' ∉ dom h) ∧ Forall (λ l', l' ∉ dom h) ls'.
Proof.
  intros (a & ls & Hl & Ha & Hts)%read_request_Some.
  unfold cloneDeep, read_options, read_array.
  rewrite Hl. cbn [mbind option_bind]. rewrite Ha. cbn [mbind option_bind].
  destruct (clone_elements_spec h (dom h) ls (targets request) ∅ h Hts)
    as (h1 & ls' & -> & Hsub1 & Hnew & Hts'); [done|by intros ??; rewrite lookup_empty|].
  cbn [mbind option_bind].
  destruct (alloc_spec h1 (OTargets ls')) as (a' & -> & Hfa & Hsuba).
  set (h2 := <[a' := OTargets ls']> h1) in *.
  destruct (alloc_spec h2 (OOptions (shared request) a')) as (c & -> & Hfc & Hsubc).
  set (h3 := <[c := OOptions (shared request) a']> h2) in *.
  exists h3, c, a', ls'. split_and!.
  - done.
  - by do 2 (etrans; [done|]).
  - unfold h3. by rewrite lookup_insert_eq.
  - apply (lookup_weaken h2); [|done]. unfold h2. by rewrite lookup_insert_eq.
  - apply (Forall2_read_target_weaken h1); [by etrans|done].
  - intros Hc. apply Hfc. apply subseteq_dom in Hsub1, Hsuba. set_solver.
  - intros Hc. apply Hfa. apply subseteq_dom in Hsub1. set_solver.
  - done.
Qed.

Lemma filter_elements_spec (h : heap) service ls ts :
  Forall2 (λ l t, read_target h l = Some t) ls ts →
  ∃ filtered,
    filter_elements h service ls = Some filtered
    ∧ filtered ⊆ ls
    ∧ Forall2 (λ l t, read_target h l = Some t) filtered
        (List.filter (matchesProperty service) ts).
Proof.
  induction 1 as [|l t ls ts Hl _ (filtered & IH & Hsub & Hts)].
  { exists []. split_and!; [done|done|constructor]. }
  cbn [filter_elements]. rewrite Hl, IH. simpl.
  destruct (matchesProperty service t).
  - exists (l :: filtered).
    split_and!; [done|by apply list_subseteq_skip|by constructor].
  - exists filtered. split_and!; [done|by apply list_subseteq_cons|done].
Qed.

(** The clone with its filtered targets: new objects only, which read as
    the request filtered for [service]; nothing that exists is written. *)
Lemma prepare_branch_spec (h : heap) options request service :
  read_request h options = Some request →
  ∃ h1 clone len,
    prepare_branch h options service = Some (h1, clone, len)
    ∧ h ⊆ h1
    ∧ reach h1 clone ## dom h
    ∧ read_request h1 clone = Some (optionsTemp request service)
    ∧ len = length (targets (optionsTemp request service)).
Proof.
  intros Hreq.
  destruct (cloneDeep_spec h options request Hreq)
    as (h1 & c & a' & ls' & Hclone & Hsub1 & Hc & Ha' & Hts & Hfc & Hfa & Hfls).
  destruct (filter_elements_spec h1 service ls' (targets request) Hts)
    as (filtered & Hfilter & Hsubl & Hfts).
  unfold prepare_branch, read_options, read_array.
  rewrite Hclone. cbn [mbind option_bind].
  rewrite Hc. cbn [mbind option_bind]. rewrite Ha'. cbn [mbind option_bind].
  rewrite Hfilter. cbn [mbind option_bind].
  destruct (alloc_spec h1 (OTargets filtered)) as (a2 & -> & Hfa2 & Hsub2).
  set (h2 := <[a2 := OTargets filtered]> h1) in *.
  set (h3 := <[c := OOptions (shared request) a2]> h2).
  assert (c ≠ a2) as Hne.
  { intros ->. apply Hfa2. apply elem_of_dom. by eexists. }
  assert (h3 !! c = Some (OOptions (shared request) a2)) as Hc3
    by (unfold h3; by rewrite lookup_insert_eq).
  assert (h3 !! a2 = Some (OTargets filtered)) as Ha3.
  { unfold h3, h2. by rewrite lookup_insert_ne, lookup_insert_eq. }
  assert (∀ l t, read_target h1 l = Some t → read_target h3 l = Some t) as Hread.
  { intros l t Hl. apply (read_target_weaken h1 h2) in Hl; [|done].
    unfold read_target, h3 in *. rewrite lookup_insert_ne; [done|].
    intros <-. apply (lookup_weaken _ h2) in Hc; [|done]. by rewrite Hc in Hl. }
  exists h3, c, (length filtered). split_and!.
  - done.
  - apply map_subseteq_spec. intros l x Hl. unfold h3.
    rewrite lookup_insert_ne.
    + apply (lookup_weaken h); [done|by etrans].
    + intros <-. apply Hfc. apply elem_of_dom. by eexists.
  - rewrite (reach_request h3 c a2 filtered (shared request)) by done.
    apply subseteq_dom in Hsub1.
    intros l [->%elem_of_singleton|[->%elem_of_singleton|Hl%elem_of_list_to_set]%elem_of_union]%elem_of_union Hd.
    + done.
    + apply Hfa2. by apply Hsub1.
    + apply Hsubl in Hl. by eapply (proj1 (Forall_forall _ _) Hfls).
  - apply read_request_Some. exists a2, filtered. split_and!; [done|done|].
    simpl. eapply Forall2_impl; [done|]. done.
  - simpl. by apply Forall2_length in Hfts.
Qed.

Lemma subseteq_unchanged private (h h' : heap) : h ⊆ h' → unchanged private h h'.
Proof.
  intros Hsub. split; [by apply subseteq_dom|].
  intros l [x Hl]%elem_of_dom _. rewrite Hl. by eapply lookup_weaken.
Qed.

Lemma unchanged_trans private (h1 h2 h3 : heap) :
  unchanged private h1 h2 → unchanged private h2 h3 → unchanged private h1 h3.
Proof.
  intros [Hd12 H12] [Hd23 H23]. split; [by etrans|].
  intros l Hl Hp. rewrite H23; [|by apply Hd12|done]. by apply H12.
Qed.

(** A request that is not part of the clients' state reads the same, and
    consists of the same objects, in a store in which it is unchanged. *)
Lemma unchanged_read_request private (h h' : heap) l request :
  unchanged private h h' →
  reach h l ## private →
  read_request h l = Some request →
  read_request h' l = Some request ∧ reach h' l = reach h l.
Proof.
  intros [_ Hsame] Hdisj (a & ls & Hl & Ha & Hts)%read_request_Some.
  rewrite (reach_request h l a ls (shared request)) in * by done.
  assert (h' !! l = Some (OOptions (shared request) a)) as Hl'.
  { rewrite Hsame; [done|by apply elem_of_dom; eexists|set_solver]. }
  assert (h' !! a = Some (OTargets ls)) as Ha'.
  { rewrite Hsame; [done|by apply elem_of_dom; eexists|set_solver]. }
  split; [|by rewrite (reach_request h' l a ls (shared request))].
  apply read_request_Some. exists a, ls. split_and!; [done|done|].
  apply Forall2_same_length_lookup. split; [by eapply Forall2_length|].
  intros i li t Hli Hti.
  pose proof (Forall2_lookup_lr _ _ _ _ _ _ Hts Hli Hti) as Hr.
  unfold read_target in *. rewrite Hsame; [done| |].
  - apply elem_of_dom. by destruct (h !! li).
  - apply list_elem_of_lookup_2 in Hli. set_solver.
Qed.

(** A client that respects the frame leaves alone what exists outside
    the clone that it is handed. *)
Lemma client_frame_unchanged private client (h h1 : heap) clone :
  respects_frame private client →
  h ⊆ h1 → reach h1 clone ## dom h →
  unchanged private h (heap_query client h1 clone).1.
Proof.
  intros Hframe Hsub Hdisj. destruct (Hframe h1 clone) as [Hdom Hsame].
  apply subseteq_dom in Hsub as Hd. split; [by etrans|].
  intros l Hl Hp. rewrite Hsame; [|by apply Hd|done|set_solver].
  apply elem_of_dom in Hl as [x Hl]. rewrite Hl. by eapply lookup_weaken.
Qed.

Lemma heap_query_forEach_unchanged this private options request services
    promises (h : heap) :
  (∀ key client,
     heap_members this !! key = Some client → respects_frame private client) →
  reach h options ## private →
  read_request h options = Some request →
  ∃ h' r,
    heap_query_forEach this options services promises h = Some (h', r)
    ∧ unchanged private h h'.
Proof.
  intros Hframe. revert promises h.
  induction services as [|s services IH]; intros promises h Hdisj Hreq.
  { exists h, (Normal promises). split; [done|]. by apply subseteq_unchanged. }
  cbn [heap_query_forEach].
  destruct (prepare_branch_spec h options request s Hreq)
    as (h1 & clone & len & -> & Hsub & Hnew & _ & _).
  cbn [mbind option_bind].
  assert (∀ ps h2, unchanged private h h2 →
            ∃ h' r, heap_query_forEach this options services ps h2 = Some (h', r)
                    ∧ unchanged private h h') as Hnext.
  { intros ps h2 Hun.
    destruct (unchanged_read_request private h h2 options request Hun Hdisj Hreq)
      as [Hreq2 Hreach2].
    destruct (IH ps h2) as (h' & r & -> & Hun'); [by rewrite Hreach2|done|].
    exists h', r. split; [done|]. by eapply unchanged_trans. }
  case_bool_decide; [|by apply Hnext, subseteq_unchanged].
  destruct (heap_members this !! memberName s) as [client|] eqn:Hm.
  2:{ eexists _, _. split; [done|]. by apply subseteq_unchanged. }
  pose proof (client_frame_unchanged private client h h1 clone
                (Hframe _ _ Hm) Hsub Hnew) as Hun.
  destruct (heap_query client h1 clone) as [h2 [[p|]|e]]; simpl in Hun.
  - by apply Hnext.
  - by apply Hnext.
  - by eexists _, _.
Qed.

(** C10. [query] leaves the caller's request as it is.  Provided that the
    clients respect the frame and that the request is not part of their
    state, the request reads after the dispatch as it did before, targets
    included, and so does every other object that is not part of the
    clients' state.  In every iteration, whatever the store then holds,
    the clone and its filtered targets are new objects, and making them
    writes to no object that exists: neither to the caller's request nor to
    the clone of another iteration. *)
Theorem query_leaves_request_unchanged (this : HeapDatasource)
    (private : gset loc) (h : heap) (options : loc) (request : Options) :
  read_request h options = Some request →
  reach h options ## private →
  (∀ key client,
     heap_members this !! key = Some client → respects_frame private client) →
  (∃ h' r,
     heap_query_dispatch this h options = Some (h', r)
     ∧ unchanged private h h'
     ∧ read_request h' options = Some request
     ∧ reach h' options = reach h options)
  ∧ (∀ (h0 : heap) service,
       read_request h0 options = Some request →
       ∃ h1 clone len,
         prepare_branch h0 options service = Some (h1, clone, len)
         ∧ h0 ⊆ h1
         ∧ reach h1 clone ## dom h0
         ∧ read_request h1 clone = Some (optionsTemp request service)
         ∧ read_request h1 options = Some request).
Proof.
  intros Hreq Hdisj Hframe. split.
  - unfold heap_query_dispatch.
    destruct (heap_query_forEach_unchanged this private options request
                (getSelectedServices (base this)) [] h Hframe Hdisj Hreq)
      as (h' & r & -> & Hun).
    cbn [mbind option_bind].
    destruct (unchanged_read_request private h h' options request Hun Hdisj Hreq)
      as [Hreq' Hreach'].
    destruct r as [ps|e]; [case_bool_decide|]; by eexists _, _.
  - intros h0 service Hreq0.
    destruct (prepare_branch_spec h0 options request service Hreq0)
      as (h1 & clone & len & Hprep & Hsub & Hnew & Hclone & _).
    exists h1, clone, len. split_and!; try done.
    by eapply read_request_weaken.
Qed.

(** The loop on the store completes as the loop on the request read from
    the store, when each client completes on the store as it does on the
    request that it is handed. *)
Lemma heap_query_forEach_refines this private options request services
    promises (h : heap) log :
  (∀ key client,
     heap_members this !! key = Some client → respects_frame private client) →
  members_refine this →
  reach h options ## private →
  read_request h options = Some request →
  ∃ h',
    heap_query_forEach this options services promises h
    = Some (h', (query_forEach (base this) request services promises log).2).
Proof.
  intros Hframe Hrefine. revert promises h log.
  induction services as [|s services IH]; intros promises h log Hdisj Hreq.
  { by exists h. }
  cbn [heap_query_forEach]. rewrite query_forEach_step.
  destruct (prepare_branch_spec h options request s Hreq)
    as (h1 & clone & len & -> & Hsub & Hnew & Hclone & ->).
  cbn [mbind option_bind].
  assert (∀ ps h2 log', unchanged private h h2 →
            ∃ h', heap_query_forEach this options services ps h2
                  = Some (h', (query_forEach (base this) request services ps log').2))
    as Hnext.
  { intros ps h2 log' Hun.
    destruct (unchanged_read_request private h h2 options request Hun Hdisj Hreq)
      as [Hreq2 Hreach2].
    apply IH; [by rewrite Hreach2|done]. }
  destruct (targets (optionsTemp request s)) as [|tg tgs] eqn:Htg.
  { rewrite bool_decide_false by (simpl; lia). by apply Hnext, subseteq_unchanged. }
  rewrite bool_decide_true by (simpl; lia).
  pose proof (Hrefine (memberName s)) as Hm.
  destruct (heap_members this !! memberName s) as [heap_client|] eqn:Hhm,
           (members (base this) !! memberName s) as [client|]; try done.
  2:{ by eexists. }
  pose proof (client_frame_unchanged private heap_client h h1 clone
                (Hframe _ _ Hhm) Hsub Hnew) as Hun.
  pose proof (Hm h1 clone _ Hclone) as Hres.
  cbn zeta.
  destruct (heap_query heap_client h1 clone) as [h2 r]. simpl in Hun, Hres.
  rewrite <- Hres.
  destruct r as [[p|]|e]; [by apply Hnext..|by eexists].
Qed.

(** X16. [query] on the store completes as [query] on the request that
    the store holds: what the clients write to the requests that they are
    handed has no effect on the outcome of the dispatch. *)
Theorem heap_query_refines_query (this : HeapDatasource) (private : gset loc)
    (h : heap) (options : loc) (request : Options) :
  (∀ key client,
     heap_members this !! key = Some client → respects_frame private client) →
  members_refine this →
  reach h options ## private →
  read_request h options = Some request →
  ∃ h',
    heap_query_dispatch this h options = Some (h', (query (base this) request).2).
Proof.
  intros Hframe Hrefine Hdisj Hreq. unfold heap_query_dispatch, query.
  destruct (heap_query_forEach_refines this private options request
              (getSelectedServices (base this)) [] h [] Hframe Hrefine Hdisj Hreq)
    as (h' & ->).
  cbn [mbind option_bind].
  destruct (query_forEach (base this) request (getSelectedServices (base this)) [] [])
    as [log [ps|e]]; cbn [snd]; [case_bool_decide|]; by eexists.
Qed.

End HeapFacts.

(** ** The statements on the small installation *)

(** The resolver of the description agrees with a service table in which
    no namespace occurs twice. *)
Lemma resolveServiceByNamespace_owns (registry : list ServiceDescriptor) :
  NoDup (namespace <$> registry) →
  ∀ d, d ∈ registry →
       resolveServiceByNamespace registry (namespace d) = Some (service d).
Proof.
  intros Hnodup d Hd. unfold resolveServiceByNamespace.
  destruct (list_find_elem_of (λ d', namespace d' = namespace d) registry d Hd eq_refl)
    as [[j d'] Hfind].
  rewrite Hfind. simpl.
  apply list_find_Some in Hfind as (Hj & Hns & _).
  apply list_elem_of_lookup in Hd as [i Hi].
  assert (i = j) as ->.
  { apply (NoDup_lookup _ i j (namespace d) Hnodup).
    - by rewrite list_lookup_fmap, Hi.
    - by rewrite list_lookup_fmap, Hj, <- Hns. }
  congruence.
Qed.

Lemma demo_resolver_owns classes : @resolver_owns_registry (demo_imports classes).
Proof.
  intros d Hd. apply (resolveServiceByNamespace_owns demo_services); [|exact Hd].
  apply (bool_decide_unpack _). by vm_compute.
Qed.

Example demo_selected_services :
  @getSelectedServices (demo_imports demo_classes)
    (demo_this demo_classes
       [ ("clb", VBool true); ("cdb", VStr "true"); ("cvm", VBool true) ])
  = [Some "cvm"; Some "clb"].
Proof. by vm_compute. Qed.

Lemma getSelectedServices_registry_order_witness :
  let this :=
    demo_this demo_classes
      [ ("clb", VBool true); ("cdb", VStr "true"); ("cvm", VBool true) ] in
  @resolver_owns_registry (demo_imports demo_classes)
  ∧ @getSelectedServices (demo_imports demo_classes) this
    = (λ d, Some (service d))
        <$> filter (@enabled this) (@SERVICES (demo_imports demo_classes)).
Proof.
  intros this. split; [apply demo_resolver_owns|].
  apply (@getSelectedServices_registry_order (demo_imports demo_classes) this).
  apply demo_resolver_owns.
Defined.

(** Two failures of different kinds: the later one gives the status. *)
Example demo_two_failures :
  @test_reduce (demo_imports demo_classes)
    [ {| ClientResult.status := "error"; ClientResult.message := "m1" |};
      {| ClientResult.status := "timeout"; ClientResult.message := "m2" |} ]
  = {| status := "timeout";
       message := "1. m1 " +:+ newline +:+ "2. m2 " +:+ newline;
       title := "Timeout" |}.
Proof. by vm_compute. Qed.

Example demo_failure_in_the_middle :
  @test_reduce (demo_imports demo_classes)
    [ {| ClientResult.status := "success"; ClientResult.message := "ok" |};
      {| ClientResult.status := "error"; ClientResult.message := "m1" |};
      {| ClientResult.status := "success"; ClientResult.message := "ok" |} ]
  = {| status := "error";
       message := "1. ok " +:+ newline +:+ "2. m1 " +:+ newline
                  +:+ "3. ok " +:+ newline;
       title := "Error" |}.
Proof. by vm_compute. Qed.

Lemma testDatasource_reduces_results_witness :
  let this :=
    demo_this reporting_classes [ ("cdb", VBool true); ("cvm", VBool true) ] in
  let results :=
    [ {| ClientResult.status := "error"; ClientResult.message := "m1" |};
      {| ClientResult.status := "timeout"; ClientResult.message := "m2" |} ] in
  results ≠ []
  ∧ Forall2 (@test_resolves (demo_imports reporting_classes) this)
      (@getSelectedServices (demo_imports reporting_classes) this) results
  ∧ ∃ t,
      @testDatasource (demo_imports reporting_classes) this
      = ([TestCall "CVMDatasource"; TestCall "CDBDatasource"],
         Normal (Settles t (Fulfilled
           {| status := "timeout";
              message := "1. m1 " +:+ newline +:+ "2. m2 " +:+ newline;
              title := "Timeout" |}))).
Proof.
  intros this results.
  assert (results ≠ []) as Hne by done.
  assert (Forall2 (@test_resolves (demo_imports reporting_classes) this)
            (@getSelectedServices (demo_imports reporting_classes) this) results)
    as Hres.
  { change (@getSelectedServices (demo_imports reporting_classes) this)
      with [Some "cvm"; Some "cdb"].
    repeat constructor.
    - eexists _, 30. split; reflexivity.
    - eexists _, 20. split; reflexivity. }
  split_and!; [done..|].
  exact (@testDatasource_reduces_results (demo_imports reporting_classes)
           this results Hne Hres).
Defined.

Lemma testDatasource_nothing_configured_witness :
  let this := demo_this demo_classes [ ("cvm", VStr "true"); ("cdb", VBool false) ] in
  (∀ d, d ∈ @SERVICES (demo_imports demo_classes) → ¬ @enabled this d)
  ∧ @testDatasource (demo_imports demo_classes) this
    = ([], Normal (Settles 0 (Fulfilled
         {| status := "error";
            message := "Nothing configured. At least one of the API's services must be configured.";
            title := "Error" |}))).
Proof.
  intros this.
  assert (∀ d, d ∈ @SERVICES (demo_imports demo_classes) → ¬ @enabled this d) as Hno.
  { intros d Hd. simpl in Hd.
    repeat (apply elem_of_cons in Hd as [->|Hd]); [..|by apply elem_of_nil in Hd];
      by vm_compute. }
  split; [done|].
  exact (@testDatasource_nothing_configured (demo_imports demo_classes) this Hno).
Defined.

(** A client whose test is rejected: the test of the datasource is
    rejected, although the other two clients pass. *)
Lemma testDatasource_rejection_counterexample :
  let this := demo_this faulty_classes all_enabled in
  @getSelectedServices (demo_imports faulty_classes) this
    = [Some "cvm"; Some "cdb"; Some "clb"]
  ∧ @test_branch (demo_imports faulty_classes) this (Some "cdb")
    = Normal (Settles 20 (Rejected (ClientError "cdb down")))
  ∧ @testDatasource (demo_imports faulty_classes) this
    = ([TestCall "CVMDatasource"; TestCall "CDBDatasource"; TestCall "CLBDatasource"],
       Normal (Settles 20 (Rejected (ClientError "cdb down"))))
  ∧ ¬ ∃ t report,
        (@testDatasource (demo_imports faulty_classes) this).2
        = Normal (Settles t (Fulfilled report)).
Proof.
  intros this. split_and!; [by vm_compute..|].
  intros (t & report & Hq). by vm_compute in Hq.
Qed.

Lemma testDatasource_fails_as_a_whole_witness :
  let this := demo_this faulty_classes all_enabled in
  ∃ t' e',
    @testDatasource (demo_imports faulty_classes) this
    = (TestCall ∘ @memberName (demo_imports faulty_classes)
         <$> @getSelectedServices (demo_imports faulty_classes) this,
       Normal (Settles t' (Rejected e')))
    ∧ t' ≤ 20.
Proof.
  intros this.
  destruct (@testDatasource_fails_as_a_whole (demo_imports faulty_classes) this)
    as [Hrej _].
  destruct (Hrej (Some "cdb") 20 (ClientError "cdb down"))
    as (t' & e' & s' & Heq & _ & _ & Hle).
  - change (@getSelectedServices (demo_imports faulty_classes) this)
      with [Some "cvm"; Some "cdb"; Some "clb"].
    set_solver.
  - change (@getSelectedServices (demo_imports faulty_classes) this)
      with [Some "cvm"; Some "cdb"; Some "clb"].
    intros s' Hs' e'.
    repeat (apply elem_of_cons in Hs' as [->|Hs']); [..|by apply elem_of_nil in Hs'];
      by vm_compute.
  - reflexivity.
  - by exists t', e'.
Defined.

Lemma query_without_invocations_witness :
  let this := demo_this demo_classes [ ("cvm", VBool true) ] in
  let options :=
    {| shared := ∅; targets := [ demo_target "cdb" "A"; demo_target "clb" "B" ] |} in
  (∀ s, s ∈ @getSelectedServices (demo_imports demo_classes) this →
        targets (optionsTemp options s) = [])
  ∧ @query (demo_imports demo_classes) this options
    = ([], Normal (Settles 0 (Fulfilled {| data := [] |}))).
Proof.
  intros this options.
  assert (∀ s, s ∈ @getSelectedServices (demo_imports demo_classes) this →
               targets (optionsTemp options s) = []) as Hnone.
  { change (@getSelectedServices (demo_imports demo_classes) this) with [Some "cvm"].
    intros s Hs. apply list_elem_of_singleton in Hs. by subst s. }
  split; [done|].
  exact (@query_without_invocations (demo_imports demo_classes) this options Hnone).
Defined.

(** With CVM and CLB enabled, the targets of CDB reach no client, and the
    blocks come in the order of the service table, although the CLB client
    completes first and comes last in the request. *)
Example demo_query :
  @query (demo_imports demo_classes)
    (demo_this demo_classes [ ("clb", VBool true); ("cvm", VBool true) ])
    demo_options
  = ([ QueryCall "CVMDatasource"
         {| shared := shared demo_options; targets := [ demo_target "cvm" "B" ] |};
       QueryCall "CLBDatasource"
         {| shared := shared demo_options; targets := [ demo_target "clb" "D" ] |} ],
     Normal (Settles 30 (Fulfilled
       {| data := [ demo_series "cvm-B"; demo_series "clb-D" ] |}))).
Proof. by vm_compute. Qed.

Lemma query_partitions_targets_witness :
  let this := demo_this demo_classes [ ("clb", VBool true); ("cvm", VBool true) ] in
  Forall
    (λ c, ∀ key request,
       c = QueryCall key request →
       (demo_target "cdb" "A" ∉ targets request)
       ∧ (demo_target "cdb" "C" ∉ targets request))
    (@query (demo_imports demo_classes) this demo_options).1
  ∧ @query (demo_imports demo_classes) this
      (@drop_inactive (demo_imports demo_classes) this demo_options)
    = @query (demo_imports demo_classes) this demo_options.
Proof.
  intros this.
  destruct (@query_partitions_targets (demo_imports demo_classes) this demo_options)
    as (_ & Hinactive & _ & Hdrop).
  split; [|exact Hdrop].
  apply Forall_forall. intros c Hc key request ->.
  split; eapply Hinactive; try exact Hc; reflexivity.
Defined.

Lemma query_flattens_in_registry_order_witness :
  let this := demo_this demo_classes all_enabled in
  (∀ s, s ∈ @getSelectedServices (demo_imports demo_classes) this →
        @branch_succeeds (demo_imports demo_classes) this demo_options s)
  ∧ ∃ t,
      (@query (demo_imports demo_classes) this demo_options).2
      = Normal (Settles t (Fulfilled
          {| data := [ demo_series "cvm-B"; demo_series "cdb-A";
                       demo_series "cdb-C"; demo_series "clb-D" ] |})).
Proof.
  intros this.
  assert (∀ s, s ∈ @getSelectedServices (demo_imports demo_classes) this →
               @branch_succeeds (demo_imports demo_classes) this demo_options s)
    as Hok.
  { change (@getSelectedServices (demo_imports demo_classes) this)
      with [Some "cvm"; Some "cdb"; Some "clb"].
    intros s Hs.
    repeat (apply elem_of_cons in Hs as [->|Hs]); [..|by apply elem_of_nil in Hs];
      exact I. }
  split; [done|].
  exact (proj1 (@query_flattens_in_registry_order (demo_imports demo_classes)
                  this demo_options Hok)).
Defined.

Lemma query_fails_as_a_whole_witness :
  let this := demo_this faulty_classes all_enabled in
  ∃ t',
    (@query (demo_imports faulty_classes) this demo_options).2
    = Normal (Settles t' (Rejected (ClientError "cdb down"))) ∧ t' ≤ 20.
Proof.
  intros this.
  destruct (@query_fails_as_a_whole (demo_imports faulty_classes) this demo_options)
    as [_ Hrej].
  destruct (Hrej (Some "cdb") 20 (ClientError "cdb down"))
    as (t' & e' & s' & Heq & _ & _ & Hle & Honly).
  - change (@getSelectedServices (demo_imports faulty_classes) this)
      with [Some "cvm"; Some "cdb"; Some "clb"].
    set_solver.
  - change (@getSelectedServices (demo_imports faulty_classes) this)
      with [Some "cvm"; Some "cdb"; Some "clb"].
    intros s' Hs' e'.
    repeat (apply elem_of_cons in Hs' as [->|Hs']); [..|by apply elem_of_nil in Hs'];
      by vm_compute.
  - reflexivity.
  - exists t'. split; [|done]. rewrite Heq, Honly; [done|].
    change (@getSelectedServices (demo_imports faulty_classes) this)
      with [Some "cvm"; Some "cdb"; Some "clb"].
    intros s1 t1 e1 Hs1.
    repeat (apply elem_of_cons in Hs1 as [->|Hs1]); [..|by apply elem_of_nil in Hs1];
      vm_compute; congruence.
Defined.

(** A client that throws: [query] throws the same error. *)
Example demo_query_throws :
  (@query (demo_imports (<["CDBDatasource" := throwing_client "boom"]> demo_classes))
     (demo_this (<["CDBDatasource" := throwing_client "boom"]> demo_classes) all_enabled)
     demo_options).2
  = Throw (ClientError "boom").
Proof. by vm_compute. Qed.

(** The action is there but empty, and the namespace resolves: no client
    is invoked. *)
Lemma metricFindQuery_empty_action_counterexample :
  let this := demo_this demo_classes all_enabled in
  let query := "Namespace=QCE/CVM&Action=" in
  let queries := @ParseMetricQuery (demo_imports demo_classes) query in
  queries !! "namespace" = Some "QCE/CVM"
  ∧ queries !! "action" = Some ""
  ∧ @GetServiceFromNamespace (demo_imports demo_classes) "QCE/CVM" = Some "cvm"
  ∧ is_Some (members this !! "CVMDatasource")
  ∧ @metricFindQuery (demo_imports demo_classes) this query
    = ([], Normal (Settles 0 (Fulfilled []))).
Proof.
  intros this query queries. split_and!; try by vm_compute.
  by eexists.
Qed.

Lemma metricFindQuery_routes_by_namespace_witness :
  let this := demo_this demo_classes [] in
  @metricFindQuery (demo_imports demo_classes) this
    "Namespace=QCE/CVM&Action=DescribeRegions"
  = ([ MetricFindCall "CVMDatasource"
         {[ "namespace" := "QCE/CVM"; "action" := "DescribeRegions" ]} ],
     Normal (Settles 30 (Fulfilled
       [ {| text := "Beijing"; item_value := "ap-beijing" |} ])))
  ∧ @metricFindQuery (demo_imports demo_classes) this "Namespace=QCE/CVM"
    = ([], Normal (Settles 0 (Fulfilled [])))
  ∧ @metricFindQuery (demo_imports demo_classes) this
      "Namespace=QCE/XYZ&Action=DescribeRegions"
    = ([], Normal (Settles 0 (Fulfilled []))).
Proof.
  intros this.
  pose proof (@metricFindQuery_routes_by_namespace (demo_imports demo_classes) this)
    as Hroute.
  split_and!.
  - destruct (Hroute "Namespace=QCE/CVM&Action=DescribeRegions") as (_ & Hcall & _).
    by rewrite (Hcall "QCE/CVM" "DescribeRegions" "cvm"
                  (demo_client "cvm" 30 (demo_settings []))).
  - destruct (Hroute "Namespace=QCE/CVM") as (Hempty & _).
    apply Hempty. right. right. right. by left.
  - destruct (Hroute "Namespace=QCE/XYZ&Action=DescribeRegions") as (Hempty & _).
    apply Hempty. do 5 right. exists "QCE/XYZ". split; [done|by left].
Defined.

Lemma scribbling_client_respects_frame private client :
  respects_frame private (scribbling_client client).
Proof.
  intros h arg. unfold scribbling_client. simpl.
  destruct (read_request h arg) as [request|]; [|done].
  unfold reach. destruct (read_options h arg) as [[sh a]|]; [|done]. simpl.
  split.
  - rewrite !dom_insert_L. set_solver.
  - intros l _ _ Hl. rewrite !lookup_insert_ne; [done|set_solver..].
Qed.

Lemma scribbling_client_refines client :
  client_refines (scribbling_client client) client.
Proof.
  intros h arg request Hreq. unfold scribbling_client. simpl. rewrite Hreq.
  apply read_request_Some in Hreq as (a & ls & Hl & _).
  unfold read_options. by rewrite Hl.
Qed.

Lemma demo_heap_this_frame private classes flags key client :
  heap_members (demo_heap_this classes flags) !! key = Some client →
  respects_frame private client.
Proof.
  unfold demo_heap_this. simpl.
  intros (c & <- & _)%lookup_fmap_Some. apply scribbling_client_respects_frame.
Qed.

Lemma demo_heap_this_refines classes flags :
  members_refine (demo_heap_this classes flags).
Proof.
  intros key. unfold demo_heap_this. cbn [heap_members base].
  rewrite lookup_fmap.
  destruct (members (demo_this classes flags) !! key); simpl; [|done].
  apply scribbling_client_refines.
Qed.

(** After the dispatch the caller's request reads as before, although
    every client has emptied the targets of the request that it got. *)
Example demo_heap_query :
  ∃ h',
    @heap_query_dispatch (demo_imports demo_classes)
      (demo_heap_this demo_classes all_enabled) demo_heap 1%positive
    = Some (h', Normal (Settles 30 (Fulfilled
        {| data := [ demo_series "cvm-B"; demo_series "cdb-A";
                     demo_series "cdb-C"; demo_series "clb-D" ] |})))
    ∧ read_request h' 1%positive = Some demo_options.
Proof. eexists. split; by vm_compute. Qed.

Lemma query_leaves_request_unchanged_witness :
  let this := demo_heap_this demo_classes all_enabled in
  read_request demo_heap 1%positive = Some demo_options
  ∧ reach demo_heap 1%positive ## demo_private
  ∧ (∀ key client,
       heap_members this !! key = Some client → respects_frame demo_private client)
  ∧ ∃ h' r,
      @heap_query_dispatch (demo_imports demo_classes) this demo_heap 1%positive
      = Some (h', r)
      ∧ unchanged demo_private demo_heap h'
      ∧ read_request h' 1%positive = Some demo_options
      ∧ reach h' 1%positive = reach demo_heap 1%positive.
Proof.
  intros this.
  assert (read_request demo_heap 1%positive = Some demo_options) as Hreq
    by (by vm_compute).
  assert (reach demo_heap 1%positive ## demo_private) as Hdisj
    by (apply (bool_decide_unpack _); by vm_compute).
  assert (∀ key client,
            heap_members this !! key = Some client →
            respects_frame demo_private client) as Hframe
    by (intros key client; apply demo_heap_this_frame).
  split_and!; [done..|].
  exact (proj1 (@query_leaves_request_unchanged (demo_imports demo_classes)
                  this demo_private demo_heap 1%positive demo_options
                  Hreq Hdisj Hframe)).
Defined.

(** * Further properties *)

(** ** Promises *)

(** [Promise.all] of fulfilled promises is fulfilled at the latest of
    their instants. *)
Lemma Promise_all_fulfilled_at {A} (promises : list (promise A)) (vs : list A) :
  Forall2 fulfilled_with promises vs →
  Promise_all promises = Settles (latest_instant promises) (Fulfilled vs).
Proof.
  induction 1 as [|p v ps vs [t ->] _ IH]; [done|].
  rewrite Promise_all_cons, IH. done.
Qed.

Lemma latest_instant_bound {A} (promises : list (promise A)) t s :
  Settles t s ∈ promises → t ≤ latest_instant promises.
Proof.
  unfold latest_instant.
  induction promises as [|p ps IH]; intros Hin; [by apply elem_of_nil in Hin|].
  apply elem_of_cons in Hin as [<-|Hin].
  - simpl. lia.
  - specialize (IH Hin).
    destruct p as [t' s'|]; cbn [omap list_omap settle_instant foldr];
      fold (@omap list _ _ _ (@settle_instant A) ps); [lia|done].
Qed.

(** [Promise.all] never settles when a promise never does and none is
    rejected. *)
Lemma Promise_all_pending {A} (promises : list (promise A)) :
  Pending ∈ promises →
  (∀ t e, ¬ rejection_in promises t e) →
  Promise_all promises = Pending.
Proof.
  unfold rejection_in.
  induction promises as [|p ps IH]; intros Hin Hno; [by apply elem_of_nil in Hin|].
  rewrite Promise_all_cons.
  assert (∀ t e, Settles t (Rejected e) ∉ ps) as Hno'
    by (intros t e Hr; apply (Hno t e); by right).
  destruct (Promise_all_cases ps) as [(t & e & _ & Hr & _)|[_ Hne]];
    [by destruct (Hno' t e)|].
  apply elem_of_cons in Hin as [<-|Hin].
  - simpl. destruct (Promise_all ps) as [t0 [v0|e0]|]; try done.
    by destruct (Hne t0 e0).
  - rewrite (IH Hin Hno'). destruct p as [t [v|e]|]; try done.
    destruct (Hno t e). by left.
Qed.

(** ** More on the selected services *)

Section MoreDispatcherFacts.
Context `{Imports}.

Lemma filter_ext_in {A} (P Q : A → Prop) `{∀ x, Decision (P x)}
    `{∀ x, Decision (Q x)} (l : list A) :
  (∀ x, x ∈ l → P x ↔ Q x) → filter P l = filter Q l.
Proof.
  induction l as [|x l IH]; intros Hiff; [done|].
  rewrite !filter_cons, IH by (intros y Hy; apply Hiff; by right).
  destruct (decide (P x)) as [HP|HP], (decide (Q x)) as [HQ|HQ]; try done;
    exfalso; by apply (Hiff x ltac:(left)) in HP || apply (Hiff x ltac:(left)) in HQ.
Qed.

(** X1. The selection reads nothing but the flags of the services of the
    table, and of a flag only whether it is the boolean [true]: two
    configurations under which the same descriptors are enabled give the
    same namespaces and the same services, whatever else they hold. *)
Theorem getSelectedServices_reads_registry_flags (this this' : TCMonitorDatasource) :
  (∀ d, d ∈ SERVICES → enabled this d ↔ enabled this' d) →
  getNamespaces this = getNamespaces this'
  ∧ getSelectedServices this = getSelectedServices this'.
Proof.
  intros Hsame.
  assert (getNamespaces this = getNamespaces this') as Heq.
  { rewrite !getNamespaces_filter. f_equal. by apply filter_ext_in. }
  split; [done|]. unfold getSelectedServices. by rewrite Heq.
Qed.

(** X2. The namespaces that [getNamespaces] returns are namespaces of the
    service table, in the order of the table and at most once per
    descriptor; so there are no more selected services than descriptors,
    and no namespace is returned twice when none occurs twice in the
    table. *)
Theorem getNamespaces_sublist_of_registry (this : TCMonitorDatasource) :
  sublist (getNamespaces this) (namespace <$> SERVICES)
  ∧ length (getSelectedServices this) ≤ length SERVICES
  ∧ (NoDup (namespace <$> SERVICES) → NoDup (getNamespaces this)).
Proof.
  assert (sublist (getNamespaces this) (namespace <$> SERVICES)) as Hsub.
  { rewrite getNamespaces_filter. apply fmap_sublist, sublist_filter. }
  split_and!; [done| |].
  - unfold getSelectedServices. rewrite length_map.
    apply sublist_length in Hsub. by rewrite length_fmap in Hsub.
  - intros Hnodup. by eapply sublist_NoDup.
Qed.

(** ** More on queries *)

Lemma query_log this options :
  (∀ s, s ∈ getSelectedServices this → branch_returns this options s) →
  (query this options).1 = omap (branch_call options) (getSelectedServices this).
Proof.
  intros Hret. unfold query. rewrite query_forEach_returns by done.
  rewrite !app_nil_l. by case_bool_decide.
Qed.

(** X3. When no iteration throws, [query] invokes the clients of exactly
    the selected services that have a target, once each and in the order
    of the selection; so every target that carries the key of a selected
    service is handed to the client of that service. *)
Theorem query_invokes_every_matching_service (this : TCMonitorDatasource)
    (options : Options) :
  (∀ s, s ∈ getSelectedServices this → branch_returns this options s) →
  (query this options).1 = omap (branch_call options) (getSelectedServices this)
  ∧ ∀ s t,
      s ∈ getSelectedServices this → t ∈ targets options →
      matchesProperty s t = true →
      ∃ request,
        QueryCall (memberName s) request ∈ (query this options).1
        ∧ t ∈ targets request.
Proof.
  intros Hret. split; [by apply query_log|].
  intros s t Hs Ht Hmatch. exists (optionsTemp options s).
  assert (t ∈ targets (optionsTemp options s)) as Hin
    by (by apply elem_of_List_filter).
  split; [|done]. rewrite query_log by done.
  apply list_elem_of_omap. exists s. split; [done|].
  unfold branch_call. destruct (targets (optionsTemp options s)); [|done].
  by apply elem_of_nil in Hin.
Qed.

Lemma query_forEach_throws this options before s after e promises log :
  (∀ s', s' ∈ before → branch_returns this options s') →
  query_branch this options s = Some (Throw e) →
  query_forEach this options (before ++ s :: after) promises log
  = (log ++ omap (branch_call options) before
         ++ match members this !! memberName s with
            | Some _ => [QueryCall (memberName s) (optionsTemp options s)]
            | None => []
            end,
     Throw e).
Proof.
  revert promises log.
  induction before as [|b before IH]; intros promises log Hret Hthrow.
  - rewrite app_nil_l, query_forEach_step. unfold query_branch in Hthrow.
    cbn [omap list_omap]. rewrite app_nil_l.
    destruct (targets (optionsTemp options s)); [done|].
    destruct (members this !! memberName s) as [client|].
    + cbn zeta. injection Hthrow as ->. done.
    + injection Hthrow as <-. by rewrite app_nil_r.
  - pose proof (Hret b ltac:(left)) as Hb.
    assert (∀ s', s' ∈ before → branch_returns this options s') as Hret'
      by (intros s' Hs'; apply Hret; by right).
    rewrite <- app_comm_cons, query_forEach_step. cbn [omap list_omap].
    unfold branch_returns in Hb. unfold branch_call at 1. unfold query_branch in Hb.
    destruct (targets (optionsTemp options b)); [by apply IH|].
    destruct (members this !! memberName b) as [client|]; [|by destruct (Hb TypeError)].
    cbn zeta.
    destruct (client_query client _) as [[p|]|e0]; [| |by destruct (Hb e0)];
      rewrite IH by done; by rewrite <- !app_assoc.
Qed.

(** X4. A throw ends the loop of [query]: the clients of the services
    before the one whose iteration throws have been invoked, that of the
    throwing iteration too unless the throw is the missing member, and no
    client of a later service is invoked. *)
Theorem query_stops_at_first_throw (this : TCMonitorDatasource)
    (options : Options) before s after e :
  getSelectedServices this = before ++ s :: after →
  (∀ s', s' ∈ before → branch_returns this options s') →
  query_branch this options s = Some (Throw e) →
  query this options
  = (omap (branch_call options) before
       ++ match members this !! memberName s with
          | Some _ => [QueryCall (memberName s) (optionsTemp options s)]
          | None => []
          end,
     Throw e).
Proof.
  intros Hsplit Hret Hthrow. unfold query.
  by rewrite Hsplit, (query_forEach_throws _ _ _ _ _ e) by done.
Qed.

(** X5. Clients that return nothing contribute nothing: when every
    invoked client returns a falsy value, [query] has invoked them all
    the same and returns a promise that is already fulfilled with the
    empty answer. *)
Theorem query_resolves_empty_when_clients_return_nothing
    (this : TCMonitorDatasource) (options : Options) :
  (∀ s, s ∈ getSelectedServices this →
        query_branch this options s = None
        ∨ query_branch this options s = Some (Normal None)) →
  query this options
  = (omap (branch_call options) (getSelectedServices this),
     Normal (Settles 0 (Fulfilled {| data := [] |}))).
Proof.
  intros Hnone. unfold query.
  rewrite query_forEach_returns.
  2:{ intros s Hs e He. destruct (Hnone s Hs); congruence. }
  rewrite !app_nil_l.
  assert (omap (branch_promise this options) (getSelectedServices this) = []) as ->;
    [|done].
  induction (getSelectedServices this) as [|s services IH]; [done|].
  cbn [omap list_omap]. unfold branch_promise at 1.
  destruct (Hnone s ltac:(left)) as [-> | ->];
    apply IH; intros s' Hs'; apply Hnone; by right.
Qed.

Lemma latest_instant_attained {A} (promises : list (promise A)) (vs : list A) :
  Forall2 fulfilled_with promises vs → promises ≠ [] →
  ∃ v, Settles (latest_instant promises) (Fulfilled v) ∈ promises.
Proof.
  unfold latest_instant.
  induction 1 as [|p v ps vs [t ->] Hps IH]; intros Hne; [done|].
  cbn [omap list_omap settle_instant foldr].
  fold (@omap list _ _ _ (@settle_instant A) ps).
  destruct ps as [|q qs].
  { exists v. simpl. rewrite Nat.max_0_r. by left. }
  destruct (IH ltac:(done)) as [v' Hin].
  destruct (Nat.max_spec t (foldr max 0 (omap settle_instant (q :: qs))))
    as [[_ ->]|[_ ->]].
  - exists v'. by right.
  - exists v. by left.
Qed.

Lemma branch_promises_in this options (services : list (option string)) s p :
  s ∈ services → branch_promise this options s = Some p →
  p ∈ omap (branch_promise this options) services.
Proof. intros Hs Hp. apply list_elem_of_omap. eauto. Qed.

(** X6. When every invoked client succeeds, the promise of [query] is
    fulfilled at the latest of the instants at which the clients'
    promises are: not before the slowest client has answered, and no
    later. *)
Theorem query_settles_with_the_slowest_client (this : TCMonitorDatasource)
    (options : Options) :
  (∀ s, s ∈ getSelectedServices this → branch_succeeds this options s) →
  let promises := omap (branch_promise this options) (getSelectedServices this) in
  (∃ response,
     (query this options).2
     = Normal (Settles (latest_instant promises) (Fulfilled response)))
  ∧ (∀ s t r,
       s ∈ getSelectedServices this →
       branch_promise this options s = Some (Settles t r) →
       t ≤ latest_instant promises)
  ∧ (promises ≠ [] →
     ∃ s v,
       s ∈ getSelectedServices this
       ∧ branch_promise this options s
         = Some (Settles (latest_instant promises) (Fulfilled v))).
Proof.
  intros Hok promises.
  destruct (branch_promises_fulfilled this options _ Hok) as (vs & Hvs & _).
  fold promises in Hvs. split_and!.
  - unfold query.
    rewrite query_forEach_returns by (intros s Hs; by apply branch_succeeds_returns, Hok).
    rewrite !app_nil_l. fold promises.
    case_bool_decide as Hlen.
    + apply nil_length_inv in Hlen. rewrite Hlen. by eexists.
    + rewrite (Promise_all_fulfilled_at promises vs Hvs). by eexists.
  - intros s t r Hs Hp. eapply latest_instant_bound.
    by eapply branch_promises_in.
  - intros Hne. destruct (latest_instant_attained promises vs Hvs Hne) as [v Hin].
    apply list_elem_of_omap in Hin as (s & Hs & Hp). by exists s, v.
Qed.

(** X7. [query] does not time out: when no iteration throws and no
    promise is rejected, a single client whose promise never settles keeps
    the promise of [query] from ever settling, whatever the other clients
    have answered. *)
Theorem query_waits_for_a_pending_client (this : TCMonitorDatasource)
    (options : Options) (s : option string) :
  (∀ s', s' ∈ getSelectedServices this → branch_returns this options s') →
  (∀ s' t e, s' ∈ getSelectedServices this →
             branch_promise this options s' ≠ Some (Settles t (Rejected e))) →
  s ∈ getSelectedServices this →
  branch_promise this options s = Some Pending →
  (query this options).2 = Normal Pending.
Proof.
  intros Hret Hnorej Hs Hp. unfold query.
  rewrite query_forEach_returns by done. rewrite !app_nil_l.
  set (ps := omap (branch_promise this options) (getSelectedServices this)).
  assert (Pending ∈ ps) as Hin by (by eapply branch_promises_in).
  rewrite bool_decide_false.
  2:{ intros Hlen. apply nil_length_inv in Hlen. rewrite Hlen in Hin.
      by apply elem_of_nil in Hin. }
  rewrite Promise_all_pending; [done|done|].
  intros t e (s' & Hs' & Hp')%list_elem_of_omap. by eapply Hnorej.
Qed.

(** ** More on the connectivity test *)

(** The last status that is not a success, if there is one. *)
Lemma last_failure (results : list ClientResult.t) :
  match last (filter (λ st, st ≠ "success") (ClientResult.status <$> results)) with
  | None => Forall succeeded results
  | Some st =>
      st ≠ "success" ∧ ∃ r, r ∈ results ∧ ClientResult.status r = st
  end.
Proof.
  induction results as [|r rs IH]; [by constructor|].
  rewrite fmap_cons, filter_cons.
  destruct (decide (ClientResult.status r ≠ "success")) as [Hr|Hr].
  - rewrite last_cons.
    destruct (last _) as [st|].
    + destruct IH as (Hst & r' & Hin & Heq). split; [done|].
      exists r'. split; [by right|done].
    + split; [done|]. exists r. split; [by left|done].
  - destruct (last _) as [st|].
    + destruct IH as (Hst & r' & Hin & Heq). split; [done|].
      exists r'. split; [by right|done].
    + constructor; [|done]. unfold succeeded.
      by destruct (decide (ClientResult.status r = "success")).
Qed.

(** X8. The report of the [then] callback has the status ["success"]
    exactly when every result has; otherwise its status is that of one of
    the results that have not. *)
Theorem test_reduce_success_iff (results : list ClientResult.t) :
  (status (test_reduce results) = "success" ↔ Forall succeeded results)
  ∧ (status (test_reduce results) ≠ "success" →
     ∃ r, r ∈ results ∧ ¬ succeeded r
          ∧ status (test_reduce results) = ClientResult.status r).
Proof.
  rewrite test_reduce_spec. cbn [status expected_report].
  unfold overall_status.
  pose proof (last_failure results) as Hlast.
  destruct (last _) as [st|]; cbn [default].
  - destruct Hlast as (Hst & r & Hin & Heq). split_and!; [split|].
    + done.
    + intros Hall. apply (proj1 (Forall_forall _ _) Hall) in Hin.
      unfold succeeded in Hin. congruence.
    + intros _. exists r. unfold succeeded. split_and!; [done|congruence|done].
  - split_and!; done.
Qed.

Lemma foldr_append_app (l1 l2 : list string) :
  foldr String.append "" (l1 ++ l2)
  = foldr String.append "" l1 +:+ foldr String.append "" l2.
Proof.
  induction l1 as [|s l1 IH]; [done|].
  cbn [app foldr]. by rewrite IH, string_app_assoc.
Qed.

(** X9. Reports compose: the message for a list of results followed by
    more results is the message for the first list followed by the lines
    of the others, numbered on from where the first list ends; the status
    is that for the second list unless all its results are successes, and
    then that for the first. *)
Theorem test_reduce_app (results1 results2 : list ClientResult.t) :
  message (test_reduce (results1 ++ results2))
  = message (test_reduce results1)
    +:+ foldr String.append ""
          (imap (λ j, numbered_line (length results1 + j)) results2)
  ∧ status (test_reduce (results1 ++ results2))
    = (if decide (Forall succeeded results2)
       then status (test_reduce results1)
       else status (test_reduce results2)).
Proof.
  rewrite !test_reduce_spec. cbn [status message expected_report]. split.
  - unfold report_message. by rewrite imap_app, foldr_append_app.
  - unfold overall_status. rewrite fmap_app, filter_app, last_app.
    pose proof (last_failure results2) as Hlast.
    destruct (last (filter _ (ClientResult.status <$> results2))) as [st|].
    + destruct Hlast as (Hst & r & Hin & Heq).
      rewrite decide_False; [done|].
      intros Hall. apply (proj1 (Forall_forall _ _) Hall) in Hin.
      unfold succeeded in Hin. congruence.
    + by rewrite decide_True.
Qed.

Lemma test_forEach_throws this before s after e promises log :
  (∀ s', s' ∈ before → ∀ e', test_branch this s' ≠ Throw e') →
  test_branch this s = Throw e →
  test_forEach this (before ++ s :: after) promises log
  = (log ++ (TestCall ∘ memberName <$> before)
         ++ match members this !! memberName s with
            | Some _ => [TestCall (memberName s)]
            | None => []
            end,
     Throw e).
Proof.
  revert promises log.
  induction before as [|b before IH]; intros promises log Hret Hthrow.
  - unfold test_branch in Hthrow. cbn [app test_forEach fmap list_fmap].
    destruct (members this !! memberName s) as [client|].
    + by rewrite Hthrow.
    + injection Hthrow as <-. by rewrite app_nil_r.
  - pose proof (Hret b ltac:(left)) as Hb. unfold test_branch in Hb.
    rewrite <- app_comm_cons. cbn [test_forEach].
    destruct (members this !! memberName b) as [client|]; [|by destruct (Hb TypeError)].
    destruct (client_testDatasource client) as [p|e0]; [|by destruct (Hb e0)].
    rewrite IH by (try done; intros s' Hs'; apply Hret; by right).
    by rewrite fmap_cons, <- !app_assoc.
Qed.

(** X10. [testDatasource] does not time out either: when no invocation
    throws and no test is rejected, every selected client is invoked and
    a single test that never settles keeps the promise of [testDatasource]
    from ever settling. *)
Theorem testDatasource_waits_for_a_pending_test (this : TCMonitorDatasource)
    (s : option string) :
  (∀ s', s' ∈ getSelectedServices this → ∀ e, test_branch this s' ≠ Throw e) →
  (∀ s' t e, s' ∈ getSelectedServices this →
             test_branch this s' ≠ Normal (Settles t (Rejected e))) →
  s ∈ getSelectedServices this →
  test_branch this s = Normal Pending →
  testDatasource this
  = (TestCall ∘ memberName <$> getSelectedServices this, Normal Pending).
Proof.
  intros Hret Hnorej Hs Hp. unfold testDatasource.
  destruct (test_forEach_returns this _ [] [] Hret) as (ps & -> & Hps).
  rewrite !app_nil_l.
  assert (Pending ∈ ps) as Hin.
  { apply list_elem_of_lookup in Hs as [i Hi].
    destruct (Forall2_lookup_l _ _ _ _ _ Hps Hi) as (p & Hpi & Hb).
    rewrite Hp in Hb. injection Hb as <-. by eapply list_elem_of_lookup_2. }
  rewrite bool_decide_false.
  2:{ intros Hlen. apply nil_length_inv in Hlen. subst ps.
      by apply elem_of_nil in Hin. }
  rewrite Promise_all_pending; [done|done|].
  intros t e Hr. apply list_elem_of_lookup in Hr as [j Hj].
  destruct (Forall2_lookup_r _ _ _ _ _ Hps Hj) as (s' & Hs' & Hb').
  eapply Hnorej; [|done]. by eapply list_elem_of_lookup_2.
Qed.

(** X11. A throw ends the loop of [testDatasource]: the tests of the
    services before the throwing one have been started, that of the
    throwing one too unless the throw is the missing member, and the test
    of no later service is started. *)
Theorem testDatasource_stops_at_first_throw (this : TCMonitorDatasource)
    before s after e :
  getSelectedServices this = before ++ s :: after →
  (∀ s', s' ∈ before → ∀ e', test_branch this s' ≠ Throw e') →
  test_branch this s = Throw e →
  testDatasource this
  = ((TestCall ∘ memberName <$> before)
       ++ match members this !! memberName s with
          | Some _ => [TestCall (memberName s)]
          | None => []
          end,
     Throw e).
Proof.
  intros Hsplit Hret Hthrow. unfold testDatasource.
  by rewrite Hsplit, (test_forEach_throws _ _ _ _ e) by done.
Qed.

(** ** More on template variables *)

Lemma falsy_false (v : option string) :
  falsy v = false → ∃ s, v = Some s ∧ s ≠ "".
Proof.
  destruct v as [s|]; [|done]. simpl. intros Hs%bool_decide_eq_false. eauto.
Qed.

(** What [metricFindQuery] does once its guard is passed. *)
Lemma metricFindQuery_past_guard this query :
  let queries := ParseMetricQuery query in
  metricFindQuery this query = ([], Normal (Settles 0 (Fulfilled [])))
  ∨ ∃ ns action s,
      queries !! "namespace" = Some ns ∧ ns ≠ ""
      ∧ queries !! "action" = Some action ∧ action ≠ ""
      ∧ GetServiceFromNamespace ns = Some s ∧ s ≠ ""
      ∧ metricFindQuery this query
        = match members this !! memberName (Some s) with
          | None => ([], Throw TypeError)
          | Some client =>
              ([MetricFindCall (memberName (Some s)) queries],
               match client_metricFindQuery client queries with
               | Throw e => Throw e
               | Normal (Some result) => Normal result
               | Normal None => Normal (Settles 0 (Fulfilled []))
               end)
          end.
Proof.
  intros queries. unfold metricFindQuery, or_empty. fold queries.
  destruct (bool_decide (queries = ∅)); [by left|].
  destruct (falsy (queries !! "namespace")) eqn:Hn; [by left|].
  destruct (falsy (queries !! "action")) eqn:Ha; [by left|].
  apply falsy_false in Hn as (ns & Hn & Hns).
  apply falsy_false in Ha as (action & Ha & Haction).
  rewrite Hn. cbn [default orb]. unfold id.
  destruct (falsy (GetServiceFromNamespace ns)) eqn:Hs; [by left|].
  apply falsy_false in Hs as (s & Hs & Hsne).
  right. exists ns, action, s. rewrite Hs. split_and!; try done.
  destruct (members this !! memberName (Some s)) as [client|]; [|done].
  by destruct (client_metricFindQuery client queries) as [[?|]|].
Qed.

(** X12. [metricFindQuery] never fans out: whatever the query string and
    the configuration, it invokes no client or exactly one, and this one
    is the member named after the service to which the namespace of the
    query resolves, invoked with the parsed query. *)
Theorem metricFindQuery_invokes_at_most_one_client (this : TCMonitorDatasource)
    (query : string) :
  let queries := ParseMetricQuery query in
  (metricFindQuery this query).1 = []
  ∨ ∃ ns s,
      queries !! "namespace" = Some ns
      ∧ GetServiceFromNamespace ns = Some s
      ∧ (metricFindQuery this query).1
        = [MetricFindCall (memberName (Some s)) queries].
Proof.
  intros queries.
  destruct (metricFindQuery_past_guard this query)
    as [->|(ns & action & s & Hn & _ & _ & _ & Hs & _ & ->)]; [by left|].
  destruct (members this !! memberName (Some s)) as [client|]; [|by left].
  right. by exists ns, s.
Qed.

(** X13. [metricFindQuery] throws only once its guard is passed: an
    incomplete query never throws.  Past the guard it throws a
    [TypeError], without invoking anything, when the datasource object has
    no member for the service; and otherwise only what the client
    throws. *)
Theorem metricFindQuery_throws_only_past_the_guard (this : TCMonitorDatasource)
    (query : string) :
  let queries := ParseMetricQuery query in
  (∀ e, (metricFindQuery this query).2 = Throw e →
     ∃ ns action s,
       queries !! "namespace" = Some ns ∧ ns ≠ ""
       ∧ queries !! "action" = Some action ∧ action ≠ ""
       ∧ GetServiceFromNamespace ns = Some s ∧ s ≠ ""
       ∧ match members this !! memberName (Some s) with
         | None => e = TypeError ∧ (metricFindQuery this query).1 = []
         | Some client => client_metricFindQuery client queries = Throw e
         end)
  ∧ (∀ ns action s,
       queries !! "namespace" = Some ns → ns ≠ "" →
       queries !! "action" = Some action → action ≠ "" →
       GetServiceFromNamespace ns = Some s → s ≠ "" →
       members this !! memberName (Some s) = None →
       metricFindQuery this query = ([], Throw TypeError)).
Proof.
  intros queries. split.
  - intros e.
    destruct (metricFindQuery_past_guard this query)
      as [->|(ns & action & s & Hn & Hns & Ha & Haction & Hs & Hsne & ->)]; [done|].
    intros He. exists ns, action, s. split_and!; try done.
    destruct (members this !! memberName (Some s)) as [client|]; simpl in He.
    + unfold queries.
      destruct (client_metricFindQuery client _) as [[?|]|]; congruence.
    + by injection He as <-.
  - intros ns action s Hn Hns Ha Haction Hs Hsne Hm.
    destruct (metricFindQuery_past_guard this query)
      as [Hq|(ns' & action' & s' & Hn' & _ & _ & _ & Hs' & _ & ->)].
    + exfalso. revert Hq. unfold metricFindQuery, or_empty. fold queries.
      rewrite Hn, Ha. cbn [falsy default]. unfold id.
      rewrite (bool_decide_false (ns = "")), (bool_decide_false (action = "")) by done.
      cbv iota. rewrite Hs. cbn [falsy].
      rewrite (bool_decide_false (s = "")) by done.
      rewrite bool_decide_false by (intros Hq; by rewrite Hq in Hn).
      cbn [orb]. by rewrite Hm.
    + unfold queries in Hn. rewrite Hn in Hn'. injection Hn' as <-.
      rewrite Hs in Hs'. injection Hs' as <-. by rewrite Hm.
Qed.

(** ** The constructor *)

(** X17. The constructor keeps the settings and makes one member per
    client class, under the name of the class.  When the resolver agrees
    with the service table and there is a class under the member name of
    every service of the table, the object that it makes has a member for
    every service that its settings select. *)
Theorem constructor_installs_selected_members (settings : InstanceSettings) :
  resolver_owns_registry →
  (∀ d, d ∈ SERVICES → is_Some (Datasources !! memberName (Some (service d)))) →
  let this := new_TCMonitorDatasource settings in
  instanceSettings this = settings
  ∧ dom (members this) = dom Datasources
  ∧ (∀ key _class,
       Datasources !! key = Some _class →
       members this !! key = Some (_class settings))
  ∧ (∀ s, s ∈ getSelectedServices this →
          ∃ _class,
            Datasources !! memberName s = Some _class
            ∧ members this !! memberName s = Some (_class settings)
            ∧ test_branch this s = client_testDatasource (_class settings)).
Proof.
  intros Howns Hclasses this.
  assert (∀ key _class,
            Datasources !! key = Some _class →
            members this !! key = Some (_class settings)) as Hmember.
  { intros key _class Hk. unfold this, new_TCMonitorDatasource. simpl.
    by rewrite lookup_fmap, Hk. }
  split_and!; [done|apply dom_fmap_L|done|].
  intros s Hs. rewrite getSelectedServices_filter in Hs.
  apply list_elem_of_fmap in Hs as (d & -> & Hd).
  apply list_elem_of_filter in Hd as [_ Hd].
  rewrite (Howns d Hd).
  destruct (Hclasses d Hd) as [_class Hc]. exists _class.
  split_and!; [done|by apply Hmember|].
  unfold test_branch. by rewrite (Hmember _ _ Hc).
Qed.

End MoreDispatcherFacts.

(** ** Regions, metrics, zones and instances *)

Section ListingFacts.
Context `{Imports}.

(** X14. [getZones] returns the plain empty array, and not a promise,
    exactly when the member is there and has no [getZones]; nothing is
    invoked then.  When there is no member for the service it throws a
    [TypeError], and when the member has the operation it invokes it once,
    with the region, and hands on what it returns or throws. *)
Theorem getZones_without_capability (this : ListingDatasource)
    (service region : string) :
  let key := memberName (Some service) in
  (∀ items,
     (getZones this service region).2 = Normal (Plain items) →
     items = [] ∧ (getZones this service region).1 = []
     ∧ ∃ client, listing_members this !! key = Some client
                 ∧ client_getZones client = None)
  ∧ (∀ client,
       listing_members this !! key = Some client →
       client_getZones client = None →
       getZones this service region = ([], Normal (Plain [])))
  ∧ (listing_members this !! key = None →
     getZones this service region = ([], Throw TypeError))
  ∧ (∀ client zones,
       listing_members this !! key = Some client →
       client_getZones client = Some zones →
       getZones this service region
       = ([ZonesCall key region],
          match zones region with
          | Normal p => Normal (Promised p)
          | Throw e => Throw e
          end)).
Proof.
  intros key. unfold getZones. fold key. split_and!.
  - intros items.
    destruct (listing_members this !! key) as [client|]; [|done].
    destruct (client_getZones client) as [zones|] eqn:Hz; simpl.
    + by destruct (zones region).
    + intros Hitems. injection Hitems as <-. split_and!; [done..|]. by exists client.
  - by intros client -> ->.
  - by intros ->.
  - by intros client zones -> ->.
Qed.


End ListingFacts.

(** ** The further statements on the small installation *)

Lemma getSelectedServices_reads_registry_flags_witness :
  let this :=
    demo_this demo_classes [ ("cvm", VBool true); ("cdb", VStr "true") ] in
  let this' :=
    demo_this faulty_classes
      [ ("secretId", VStr "AKID"); ("clb", VNum 1); ("cvm", VBool true) ] in
  (∀ d, d ∈ @SERVICES (demo_imports demo_classes) →
        @enabled this d ↔ @enabled this' d)
  ∧ @getNamespaces (demo_imports demo_classes) this
    = @getNamespaces (demo_imports demo_classes) this'
  ∧ @getSelectedServices (demo_imports demo_classes) this
    = @getSelectedServices (demo_imports demo_classes) this'.
Proof.
  intros this this'.
  assert (∀ d, d ∈ @SERVICES (demo_imports demo_classes) →
               @enabled this d ↔ @enabled this' d) as Hsame.
  { intros d Hd. simpl in Hd.
    repeat (apply elem_of_cons in Hd as [->|Hd]); [..|by apply elem_of_nil in Hd];
      by vm_compute. }
  split; [done|].
  exact (@getSelectedServices_reads_registry_flags (demo_imports demo_classes)
           this this' Hsame).
Defined.

Lemma demo_branches_return :
  ∀ s, s ∈ @getSelectedServices (demo_imports demo_classes)
             (demo_this demo_classes all_enabled) →
       @branch_returns (demo_imports demo_classes)
         (demo_this demo_classes all_enabled) demo_options s.
Proof.
  change (@getSelectedServices (demo_imports demo_classes)
            (demo_this demo_classes all_enabled))
    with [Some "cvm"; Some "cdb"; Some "clb"].
  intros s Hs e.
  repeat (apply elem_of_cons in Hs as [->|Hs]); [..|by apply elem_of_nil in Hs];
    by vm_compute.
Qed.

Lemma query_invokes_every_matching_service_witness :
  let this := demo_this demo_classes all_enabled in
  (∀ s, s ∈ @getSelectedServices (demo_imports demo_classes) this →
        @branch_returns (demo_imports demo_classes) this demo_options s)
  ∧ (@query (demo_imports demo_classes) this demo_options).1
    = [ QueryCall "CVMDatasource"
          {| shared := shared demo_options; targets := [ demo_target "cvm" "B" ] |};
        QueryCall "CDBDatasource"
          {| shared := shared demo_options;
             targets := [ demo_target "cdb" "A"; demo_target "cdb" "C" ] |};
        QueryCall "CLBDatasource"
          {| shared := shared demo_options; targets := [ demo_target "clb" "D" ] |} ].
Proof.
  intros this. split; [apply demo_branches_return|].
  destruct (@query_invokes_every_matching_service (demo_imports demo_classes)
              this demo_options demo_branches_return) as [-> _].
  reflexivity.
Defined.

(** The CDB client throws: the CVM client has been invoked, the CLB
    client is not. *)
Lemma query_stops_at_first_throw_witness :
  let this := demo_this throwing_classes all_enabled in
  @getSelectedServices (demo_imports throwing_classes) this
    = [Some "cvm"] ++ Some "cdb" :: [Some "clb"]
  ∧ @query (demo_imports throwing_classes) this demo_options
    = ([ QueryCall "CVMDatasource"
           {| shared := shared demo_options; targets := [ demo_target "cvm" "B" ] |};
         QueryCall "CDBDatasource"
           {| shared := shared demo_options;
              targets := [ demo_target "cdb" "A"; demo_target "cdb" "C" ] |} ],
       Throw (ClientError "boom")).
Proof.
  intros this.
  assert (@getSelectedServices (demo_imports throwing_classes) this
          = [Some "cvm"] ++ Some "cdb" :: [Some "clb"]) as Hsplit by reflexivity.
  split; [done|].
  rewrite (@query_stops_at_first_throw (demo_imports throwing_classes) this
             demo_options [Some "cvm"] (Some "cdb") [Some "clb"]
             (ClientError "boom") Hsplit).
  - reflexivity.
  - intros s' Hs' e. apply list_elem_of_singleton in Hs'. subst s'. by vm_compute.
  - reflexivity.
Defined.

(** No member for CDB: a [TypeError], and the CLB client is not invoked. *)
Example demo_query_missing_member :
  @query (demo_imports partial_classes)
    (demo_this partial_classes all_enabled) demo_options
  = ([ QueryCall "CVMDatasource"
         {| shared := shared demo_options; targets := [ demo_target "cvm" "B" ] |} ],
     Throw TypeError).
Proof. by vm_compute. Qed.

Lemma query_resolves_empty_when_clients_return_nothing_witness :
  let this := demo_this reporting_classes all_enabled in
  (∀ s, s ∈ @getSelectedServices (demo_imports reporting_classes) this →
        @query_branch (demo_imports reporting_classes) this demo_options s = None
        ∨ @query_branch (demo_imports reporting_classes) this demo_options s
          = Some (Normal None))
  ∧ (@query (demo_imports reporting_classes) this demo_options).2
    = Normal (Settles 0 (Fulfilled {| data := [] |}))
  ∧ length (@query (demo_imports reporting_classes) this demo_options).1 = 3.
Proof.
  intros this.
  assert (∀ s, s ∈ @getSelectedServices (demo_imports reporting_classes) this →
        @query_branch (demo_imports reporting_classes) this demo_options s = None
        ∨ @query_branch (demo_imports reporting_classes) this demo_options s
          = Some (Normal None)) as Hnone.
  { change (@getSelectedServices (demo_imports reporting_classes) this)
      with [Some "cvm"; Some "cdb"; Some "clb"].
    intros s Hs.
    repeat (apply elem_of_cons in Hs as [->|Hs]); [..|by apply elem_of_nil in Hs];
      by right. }
  split; [done|].
  rewrite (@query_resolves_empty_when_clients_return_nothing
             (demo_imports reporting_classes) this demo_options Hnone).
  split; reflexivity.
Defined.

Lemma demo_branches_succeed :
  ∀ s, s ∈ @getSelectedServices (demo_imports demo_classes)
             (demo_this demo_classes all_enabled) →
       @branch_succeeds (demo_imports demo_classes)
         (demo_this demo_classes all_enabled) demo_options s.
Proof.
  change (@getSelectedServices (demo_imports demo_classes)
            (demo_this demo_classes all_enabled))
    with [Some "cvm"; Some "cdb"; Some "clb"].
  intros s Hs.
  repeat (apply elem_of_cons in Hs as [->|Hs]); [..|by apply elem_of_nil in Hs];
    exact I.
Qed.

(** The clients answer at 30, 20 and 10: the answer is there at 30. *)
Lemma query_settles_with_the_slowest_client_witness :
  let this := demo_this demo_classes all_enabled in
  (∀ s, s ∈ @getSelectedServices (demo_imports demo_classes) this →
        @branch_succeeds (demo_imports demo_classes) this demo_options s)
  ∧ ∃ response,
      (@query (demo_imports demo_classes) this demo_options).2
      = Normal (Settles 30 (Fulfilled response)).
Proof.
  intros this. split; [apply demo_branches_succeed|].
  exact (proj1 (@query_settles_with_the_slowest_client (demo_imports demo_classes)
                  this demo_options demo_branches_succeed)).
Defined.

Lemma query_waits_for_a_pending_client_witness :
  let this := demo_this stalled_classes all_enabled in
  @branch_promise (demo_imports stalled_classes) this demo_options (Some "cdb")
    = Some Pending
  ∧ (@query (demo_imports stalled_classes) this demo_options).2 = Normal Pending.
Proof.
  intros this. split; [reflexivity|].
  apply (@query_waits_for_a_pending_client (demo_imports stalled_classes)
           this demo_options (Some "cdb")).
  - change (@getSelectedServices (demo_imports stalled_classes) this)
      with [Some "cvm"; Some "cdb"; Some "clb"].
    intros s Hs e.
    repeat (apply elem_of_cons in Hs as [->|Hs]); [..|by apply elem_of_nil in Hs];
      by vm_compute.
  - change (@getSelectedServices (demo_imports stalled_classes) this)
      with [Some "cvm"; Some "cdb"; Some "clb"].
    intros s t e Hs.
    repeat (apply elem_of_cons in Hs as [->|Hs]); [..|by apply elem_of_nil in Hs];
      by vm_compute.
  - change (@getSelectedServices (demo_imports stalled_classes) this)
      with [Some "cvm"; Some "cdb"; Some "clb"].
    set_solver.
  - reflexivity.
Defined.

Lemma testDatasource_waits_for_a_pending_test_witness :
  let this := demo_this stalled_classes all_enabled in
  @test_branch (demo_imports stalled_classes) this (Some "cdb") = Normal Pending
  ∧ @testDatasource (demo_imports stalled_classes) this
    = ([TestCall "CVMDatasource"; TestCall "CDBDatasource"; TestCall "CLBDatasource"],
       Normal Pending).
Proof.
  intros this. split; [reflexivity|].
  rewrite (@testDatasource_waits_for_a_pending_test (demo_imports stalled_classes)
             this (Some "cdb")).
  - reflexivity.
  - change (@getSelectedServices (demo_imports stalled_classes) this)
      with [Some "cvm"; Some "cdb"; Some "clb"].
    intros s Hs e.
    repeat (apply elem_of_cons in Hs as [->|Hs]); [..|by apply elem_of_nil in Hs];
      by vm_compute.
  - change (@getSelectedServices (demo_imports stalled_classes) this)
      with [Some "cvm"; Some "cdb"; Some "clb"].
    intros s t e Hs.
    repeat (apply elem_of_cons in Hs as [->|Hs]); [..|by apply elem_of_nil in Hs];
      by vm_compute.
  - change (@getSelectedServices (demo_imports stalled_classes) this)
      with [Some "cvm"; Some "cdb"; Some "clb"].
    set_solver.
  - reflexivity.
Defined.

(** No member for CDB: the CVM test has been started, the CLB test is
    not. *)
Lemma testDatasource_stops_at_first_throw_witness :
  let this := demo_this partial_classes all_enabled in
  @getSelectedServices (demo_imports partial_classes) this
    = [Some "cvm"] ++ Some "cdb" :: [Some "clb"]
  ∧ @testDatasource (demo_imports partial_classes) this
    = ([TestCall "CVMDatasource"], Throw TypeError).
Proof.
  intros this.
  assert (@getSelectedServices (demo_imports partial_classes) this
          = [Some "cvm"] ++ Some "cdb" :: [Some "clb"]) as Hsplit by reflexivity.
  split; [done|].
  rewrite (@testDatasource_stops_at_first_throw (demo_imports partial_classes)
             this [Some "cvm"] (Some "cdb") [Some "clb"] TypeError Hsplit).
  - reflexivity.
  - intros s' Hs' e. apply list_elem_of_singleton in Hs'. subst s'. by vm_compute.
  - reflexivity.
Defined.

Example demo_report_app :
  @test_reduce (demo_imports demo_classes)
    ([ {| ClientResult.status := "error"; ClientResult.message := "m1" |} ]
     ++ [ {| ClientResult.status := "success"; ClientResult.message := "ok" |} ])
  = {| status := "error";
       message := "1. m1 " +:+ newline +:+ "2. ok " +:+ newline;
       title := "Error" |}.
Proof. by vm_compute. Qed.

(** The action is there, the namespace resolves to CVM, but the object
    has no member for CVM. *)
Example demo_metricFindQuery_missing_member :
  @metricFindQuery (demo_imports (delete "CVMDatasource" demo_classes))
    (demo_this (delete "CVMDatasource" demo_classes) all_enabled)
    "Namespace=QCE/CVM&Action=DescribeRegions"
  = ([], Throw TypeError).
Proof. by vm_compute. Qed.

Example demo_getZones :
  @getZones (demo_imports demo_classes) demo_listing "cvm" "ap-beijing"
    = ([ZonesCall "CVMDatasource" "ap-beijing"],
       Normal (Promised (Settles 5 (Fulfilled (demo_zones "ap-beijing")))))
  ∧ @getZones (demo_imports demo_classes) demo_listing "cdb" "ap-beijing"
    = ([], Normal (Plain []))
  ∧ @getZones (demo_imports demo_classes) demo_listing "clb" "ap-beijing"
    = ([], Throw TypeError)
  ∧ @getRegions (demo_imports demo_classes) demo_listing "clb"
    = ([], Throw TypeError).
Proof. split_and!; by vm_compute. Qed.

Lemma heap_query_refines_query_witness :
  let this := demo_heap_this demo_classes all_enabled in
  (∀ key client,
     heap_members this !! key = Some client → respects_frame demo_private client)
  ∧ members_refine this
  ∧ reach demo_heap 1%positive ## demo_private
  ∧ read_request demo_heap 1%positive = Some demo_options
  ∧ ∃ h',
      @heap_query_dispatch (demo_imports demo_classes) this demo_heap 1%positive
      = Some (h', (@query (demo_imports demo_classes) (base this) demo_options).2).
Proof.
  intros this.
  assert (∀ key client,
            heap_members this !! key = Some client →
            respects_frame demo_private client) as Hframe
    by (intros key client; apply demo_heap_this_frame).
  assert (members_refine this) as Hrefine by apply demo_heap_this_refines.
  assert (reach demo_heap 1%positive ## demo_private) as Hdisj
    by (apply (bool_decide_unpack _); by vm_compute).
  assert (read_request demo_heap 1%positive = Some demo_options) as Hreq
    by (by vm_compute).
  split_and!; [done..|].
  exact (@heap_query_refines_query (demo_imports demo_classes) this demo_private
           demo_heap 1%positive demo_options Hframe Hrefine Hdisj Hreq).
Defined.

Lemma constructor_installs_selected_members_witness :
  let settings := demo_settings all_enabled in
  @resolver_owns_registry (demo_imports demo_classes)
  ∧ (∀ d, d ∈ @SERVICES (demo_imports demo_classes) →
          is_Some (@Datasources (demo_imports demo_classes)
                     !! @memberName (demo_imports demo_classes) (Some (service d))))
  ∧ ∀ s,
      s ∈ @getSelectedServices (demo_imports demo_classes)
            (@new_TCMonitorDatasource (demo_imports demo_classes) settings) →
      is_Some (members (@new_TCMonitorDatasource (demo_imports demo_classes) settings)
                 !! @memberName (demo_imports demo_classes) s).
Proof.
  intros settings.
  assert (∀ d, d ∈ @SERVICES (demo_imports demo_classes) →
          is_Some (@Datasources (demo_imports demo_classes)
                     !! @memberName (demo_imports demo_classes) (Some (service d))))
    as Hclasses.
  { intros d Hd. simpl in Hd.
    repeat (apply elem_of_cons in Hd as [->|Hd]); [..|by apply elem_of_nil in Hd];
      by eexists. }
  split_and!; [apply demo_resolver_owns|done|].
  intros s Hs.
  destruct (@constructor_installs_selected_members (demo_imports demo_classes)
              settings (demo_resolver_owns _) Hclasses) as (_ & _ & _ & Hsel).
  destruct (Hsel s Hs) as (_class & _ & Hm & _). by eexists.
Defined.
